(** * DeepLearningLibrary: activation gradients and loss functions

    A shallow embedding of
      - [src/activation_functions.cpp]      (sigmoid),
      - [src/activation_funcs_gradient.cpp] (binary_step_gradient,
        sigmoid_gradient, softmax_gradient),
      - [headers/loss_functions.cpp]        (the eight loss functions),
    followed by the properties of the specification that concern them.

    The C++ type [float] is read in exact arithmetic: a value is a real
    number or one of the three IEEE-754 specials.  Rounding, overflow to
    infinity and the sign of zero are abstracted away; division by zero,
    logarithm of a non-positive number and arithmetic on infinities
    behave as IEEE-754 prescribes. *)

From Stdlib Require Import String Reals Lra ZArith Lia Bool Arith List.
Import ListNotations.

Local Open Scope R_scope.

(** ** The scalar type *)

Inductive float : Type :=
| Finite (r : R)
| PosInf
| NegInf
| NaN.

Definition Rsign (r : R) : comparison :=
  if Rlt_dec 0 r then Gt else if Rlt_dec r 0 then Lt else Eq.

Definition inf_of (s : comparison) : float :=
  match s with Gt => PosInf | Lt => NegInf | Eq => NaN end.

(** Unary minus. *)
Definition fneg (x : float) : float :=
  match x with
  | Finite r => Finite (- r)
  | PosInf => NegInf
  | NegInf => PosInf
  | NaN => NaN
  end.

Definition fadd (x y : float) : float :=
  match x, y with
  | NaN, _ | _, NaN => NaN
  | Finite a, Finite b => Finite (a + b)
  | PosInf, NegInf | NegInf, PosInf => NaN
  | PosInf, _ | _, PosInf => PosInf
  | NegInf, _ | _, NegInf => NegInf
  end.

Definition fsub (x y : float) : float := fadd x (fneg y).

Definition fmul (x y : float) : float :=
  match x, y with
  | NaN, _ | _, NaN => NaN
  | Finite a, Finite b => Finite (a * b)
  | Finite a, PosInf | PosInf, Finite a => inf_of (Rsign a)
  | Finite a, NegInf | NegInf, Finite a => inf_of (CompOpp (Rsign a))
  | PosInf, PosInf | NegInf, NegInf => PosInf
  | PosInf, NegInf | NegInf, PosInf => NegInf
  end.

(** [x / 0] is an infinity of the sign of [x], and [0 / 0] is NaN. *)
Definition fdiv (x y : float) : float :=
  match x, y with
  | NaN, _ | _, NaN => NaN
  | Finite a, Finite b =>
      if Req_dec_T b 0 then inf_of (Rsign a) else Finite (a / b)
  | Finite _, (PosInf | NegInf) => Finite 0
  | PosInf, Finite b => if Rlt_dec b 0 then NegInf else PosInf
  | NegInf, Finite b => if Rlt_dec b 0 then PosInf else NegInf
  | (PosInf | NegInf), (PosInf | NegInf) => NaN
  end.

(** [std::abs], [std::exp], [std::log]. *)
Definition fabs (x : float) : float :=
  match x with
  | Finite r => Finite (Rabs r)
  | PosInf | NegInf => PosInf
  | NaN => NaN
  end.

Definition fexp (x : float) : float :=
  match x with
  | Finite r => Finite (exp r)
  | PosInf => PosInf
  | NegInf => Finite 0
  | NaN => NaN
  end.

Definition flog (x : float) : float :=
  match x with
  | Finite r =>
      if Rlt_dec r 0 then NaN
      else if Req_dec_T r 0 then NegInf
      else Finite (ln r)
  | PosInf => PosInf
  | NegInf | NaN => NaN
  end.

(** Comparisons; each one is false as soon as an operand is NaN,
    except [!=], which is then true. *)
Definition flt (x y : float) : bool :=
  match x, y with
  | NaN, _ | _, NaN => false
  | Finite a, Finite b => if Rlt_dec a b then true else false
  | NegInf, (Finite _ | PosInf) => true
  | Finite _, PosInf => true
  | _, _ => false
  end.

Definition feq (x y : float) : bool :=
  match x, y with
  | Finite a, Finite b => if Req_dec_T a b then true else false
  | PosInf, PosInf | NegInf, NegInf => true
  | _, _ => false
  end.

Definition fgt (x y : float) : bool := flt y x.
Definition fle (x y : float) : bool := flt x y || feq x y.

(** Conversions to [float]: of a [std::size_t] and of an [int]. *)
Definition of_size (n : nat) : float := Finite (INR n).
Definition of_int (z : Z) : float := Finite (IZR z).

(** ** Exceptions and results *)

Inductive exception : Type :=
| invalid_argument (what : string)
| out_of_range (what : string).

Inductive result (A : Type) : Type :=
| Return (v : A)
| Throw (e : exception).
Arguments Return {A} v.
Arguments Throw {A} e.

Definition bind {A B : Type} (r : result A) (k : A -> result B) : result B :=
  match r with
  | Return v => k v
  | Throw e => Throw e
  end.

Notation "x <- r ;; k" := (bind r (fun x => k))
  (at level 61, r at next level, right associativity).

(** [for (size_t i = start; i < start + count; ++i) body], the loop
    state threaded through [body] and a throw leaving the loop. *)
Fixpoint for_loop {S : Type} (body : nat -> S -> result S)
    (start count : nat) (s : S) : result S :=
  match count with
  | O => Return s
  | Datatypes.S count' =>
      s' <- body start s ;; for_loop body (Datatypes.S start) count' s'
  end.

(** A read [v[i]] is written [nth i v d]: the code reads a vector only
    at an index below its size, so the default [d] is never returned. *)

(** [v[i] = x] on a vector of sufficient size. *)
Fixpoint vec_set {A : Type} (v : list A) (i : nat) (x : A) : list A :=
  match v, i with
  | [], _ => []
  | _ :: v', O => x :: v'
  | y :: v', Datatypes.S i' => y :: vec_set v' i' x
  end.

(** ** activation_functions.cpp *)

(** [float sigmoid(float x)] *)
Definition sigmoid (x : float) : float :=
  let value := fadd (Finite 1) (fexp (fneg x)) in
  fdiv (Finite 1) value.

(** ** activation_funcs_gradient.cpp *)

(** [float binary_step_gradient(float x)]: [(x == 0) ? 0.0f : 1.0f] *)
Definition binary_step_gradient (x : float) : float :=
  if feq x (of_int 0) then Finite 0 else Finite 1.

(** [float sigmoid_gradient(float x)] *)
Definition sigmoid_gradient (x : float) : float :=
  let sig := fdiv (Finite 1) (fadd (Finite 1) (fexp (fneg x))) in
  fmul sig (fsub (Finite 1) sig).

(** [std::max_element(first, last)] with [operator<]: the end iterator
    on an empty range, otherwise the first greatest element. *)
Definition max_element (v : list float) : option float :=
  match v with
  | [] => None
  | x :: v' =>
      Some (fold_left (fun largest y => if flt largest y then y else largest)
                      v' x)
  end.

(** [jacobian[i][j] = x] *)
Definition mat_set (m : list (list float)) (i j : nat) (x : float)
  : list (list float) :=
  vec_set m i (vec_set (nth i m []) j x).

(** The entry that the innermost loop body of [softmax_gradient] stores
    at [jacobian[i][j]]. *)
Definition jacobian_entry (softmax_values : list float) (i j : nat) : float :=
  if (i =? j)%nat then
    fmul (nth i softmax_values NaN)
         (fsub (Finite 1) (nth i softmax_values NaN))
  else
    fmul (fneg (nth i softmax_values NaN)) (nth j softmax_values NaN).

(** [std::vector<std::vector<float>> softmax_gradient(const
    std::vector<float>& logits)].  [None] stands for the undefined
    behaviour of dereferencing the end iterator that [max_element]
    returns on an empty vector. *)
Definition softmax_gradient (logits : list float)
  : option (list (list float)) :=
  let n := length logits in
  let jacobian := repeat (repeat (Finite 0) n) n in
  let softmax_values := repeat (Finite 0) n in
  match max_element logits with
  | None => None
  | Some max_logit =>
      let sum_exp :=
        fold_left (fun sum_exp logit =>
                     fadd sum_exp (fexp (fsub logit max_logit)))
                  logits (Finite 0) in
      let softmax_values :=
        fold_left (fun softmax_values i =>
                     vec_set softmax_values i
                       (fdiv (fexp (fsub (nth i logits NaN) max_logit))
                             sum_exp))
                  (seq 0 n) softmax_values in
      let jacobian :=
        fold_left (fun jacobian i =>
                     fold_left (fun jacobian j =>
                                  mat_set jacobian i j
                                    (jacobian_entry softmax_values i j))
                               (seq 0 n) jacobian)
                  (seq 0 n) jacobian in
      Some jacobian
  end.

(** ** loss_functions.cpp *)

(** The messages of the exceptions that the loss functions throw. *)
Definition same_size_msg : string :=
  "Predictions and targets must have the same size."%string.
Definition empty_msg : string :=
  "Predictions and targets cannot be empty."%string.
Definition class_count_msg : string :=
  "Each prediction and target must have the same number of classes."%string.
Definition predictions_range_msg : string :=
  "Predictions must be in the range [0, 1]."%string.
Definition targets_range_msg : string :=
  "Targets must be in the range [0, 1]."%string.
Definition target_index_msg : string :=
  "Target index is out of range for predictions."%string.
Definition hinge_targets_msg : string :=
  "Targets must be -1 or 1."%string.

(** [x < 0.0f || x > 1.0f] *)
Definition outside_unit_interval (x : float) : bool :=
  flt x (Finite 0) || fgt x (Finite 1).

(** [float mean_squared_error(predictions, targets)] *)
Definition mean_squared_error (predictions targets : list float)
  : result float :=
  if negb (length predictions =? length targets)%nat then
    Throw (invalid_argument same_size_msg)
  else
    mse <- for_loop
             (fun i mse =>
                let error := fsub (nth i predictions NaN) (nth i targets NaN) in
                Return (fadd mse (fmul error error)))
             0 (length predictions) (Finite 0) ;;
    Return (fdiv mse (of_size (length predictions))).

(** [float binary_cross_entropy(predictions, targets)] *)
Definition binary_cross_entropy (predictions targets : list float)
  : result float :=
  if (length predictions =? 0)%nat then
    Throw (invalid_argument empty_msg)
  else if negb (length predictions =? length targets)%nat then
    Throw (invalid_argument same_size_msg)
  else
    bce <- for_loop
             (fun i bce =>
                let p := nth i predictions NaN in
                let t := nth i targets NaN in
                if outside_unit_interval p then
                  Throw (out_of_range predictions_range_msg)
                else if outside_unit_interval t then
                  Throw (out_of_range targets_range_msg)
                else
                  Return (fadd bce
                            (fadd (fmul t (flog p))
                                  (fmul (fsub (of_int 1) t)
                                        (flog (fsub (of_int 1) p))))))
             0 (length predictions) (Finite 0) ;;
    Return (fdiv (fneg bce) (of_size (length predictions))).

(** [float mean_absolute_error(predictions, targets)] *)
Definition mean_absolute_error (predictions targets : list float)
  : result float :=
  if negb (length predictions =? length targets)%nat then
    Throw (invalid_argument same_size_msg)
  else
    mae <- for_loop
             (fun i mae =>
                Return (fadd mae
                          (fabs (fsub (nth i predictions NaN)
                                      (nth i targets NaN)))))
             0 (length predictions) (Finite 0) ;;
    Return (fdiv mae (of_size (length predictions))).

(** [float categorical_cross_entropy(predictions, targets)] *)
Definition categorical_cross_entropy (predictions targets : list (list float))
  : result float :=
  if negb (length predictions =? length targets)%nat then
    Throw (invalid_argument same_size_msg)
  else
    cce <- for_loop
             (fun i cce =>
                let p := nth i predictions [] in
                let t := nth i targets [] in
                if negb (length p =? length t)%nat then
                  Throw (invalid_argument class_count_msg)
                else
                  for_loop
                    (fun j cce =>
                       if feq (nth j t NaN) (Finite 1) then
                         Return (fsub cce (flog (nth j p NaN)))
                       else Return cce)
                    0 (length p) cce)
             0 (length predictions) (Finite 0) ;;
    Return (fdiv cce (of_size (length predictions))).

(** [float huber_loss(predictions, targets, delta = 1.0f)] *)
Definition huber_loss (predictions targets : list float) (delta : float)
  : result float :=
  if negb (length predictions =? length targets)%nat then
    Throw (invalid_argument same_size_msg)
  else
    loss <- for_loop
              (fun i loss =>
                 let error :=
                   fsub (nth i predictions NaN) (nth i targets NaN) in
                 if fle (fabs error) delta then
                   Return (fadd loss (fmul (fmul (Finite (1/2)) error) error))
                 else
                   Return (fadd loss
                             (fmul delta
                                (fsub (fabs error)
                                      (fmul (Finite (1/2)) delta)))))
              0 (length predictions) (Finite 0) ;;
    Return (fdiv loss (of_size (length predictions))).

(** [float sparse_categorical_cross_entropy(predictions, targets)];
    the targets are [int]s. *)
Definition sparse_categorical_cross_entropy
    (predictions : list (list float)) (targets : list Z) : result float :=
  if negb (length predictions =? length targets)%nat then
    Throw (invalid_argument same_size_msg)
  else
    loss <- for_loop
              (fun i loss =>
                 let p := nth i predictions [] in
                 let t := nth i targets 0%Z in
                 if (t <? 0)%Z || (Z.of_nat (length p) <=? t)%Z then
                   Throw (out_of_range target_index_msg)
                 else
                   Return (fsub loss (flog (nth (Z.to_nat t) p NaN))))
              0 (length predictions) (Finite 0) ;;
    Return (fdiv loss (of_size (length predictions))).

(** [float kullback_leibler_divergence(predictions, targets)] *)
Definition kullback_leibler_divergence
    (predictions targets : list (list float)) : result float :=
  if negb (length predictions =? length targets)%nat then
    Throw (invalid_argument same_size_msg)
  else
    kl_div <- for_loop
                (fun i kl_div =>
                   let p := nth i predictions [] in
                   let t := nth i targets [] in
                   if negb (length p =? length t)%nat then
                     Throw (invalid_argument class_count_msg)
                   else
                     for_loop
                       (fun j kl_div =>
                          if outside_unit_interval (nth j p NaN) then
                            Throw (out_of_range predictions_range_msg)
                          else if outside_unit_interval (nth j t NaN) then
                            Throw (out_of_range targets_range_msg)
                          else if feq (nth j t NaN) (Finite 0) then
                            Return kl_div
                          else
                            Return (fadd kl_div
                                      (fmul (nth j t NaN)
                                         (flog (fdiv (nth j t NaN)
                                                     (nth j p NaN))))))
                       0 (length p) kl_div)
                0 (length predictions) (Finite 0) ;;
    Return (fdiv kl_div (of_size (length predictions))).

(** [float hinge_loss(predictions, targets)]; the targets are [int]s. *)
Definition hinge_loss (predictions : list float) (targets : list Z)
  : result float :=
  if negb (length predictions =? length targets)%nat then
    Throw (invalid_argument same_size_msg)
  else
    loss <- for_loop
              (fun i loss =>
                 let t := nth i targets 0%Z in
                 if negb (t =? -1)%Z && negb (t =? 1)%Z then
                   Throw (invalid_argument hinge_targets_msg)
                 else
                   let margin :=
                     fsub (Finite 1) (fmul (of_int t) (nth i predictions NaN)) in
                   if fgt margin (of_int 0) then Return (fadd loss margin)
                   else Return loss)
              0 (length predictions) (Finite 0) ;;
    Return (fdiv loss (of_size (length predictions))).

(** ** The error kinds of the specification

    The specification names two error conditions.  Each exception that
    the code throws is classified by the site that throws it: a length
    check (of the batch, of a sample, or the emptiness check) is a
    [ShapeMismatch]; a range check on a value is a [DomainViolation]. *)

Inductive error_kind : Type := ShapeMismatch | DomainViolation.

Definition kind_of (e : exception) : error_kind :=
  match e with
  | invalid_argument what =>
      if (what =? hinge_targets_msg)%string then DomainViolation
      else ShapeMismatch
  | out_of_range _ => DomainViolation
  end.

(** [raises r k]: the call throws, with an exception of kind [k]. *)
Definition raises {A : Type} (r : result A) (k : error_kind) : Prop :=
  exists e, r = Throw e /\ kind_of e = k.

(** [returns r]: the call returns a value. *)
Definition returns {A : Type} (r : result A) : Prop :=
  exists v, r = Return v.

(** ** Definitions that the statements use *)

(** The sum of a list of real numbers. *)
Fixpoint Rsum (l : list R) : R :=
  match l with
  | [] => 0
  | x :: l' => x + Rsum l'
  end.

(** The sum of a row of a matrix, accumulated from the left. *)
Definition fsum (l : list float) : float := fold_left fadd l (Finite 0).




(** Two batches differ in shape: in the number of samples, or in the
    number of classes of some sample. *)
Definition batch_shape_differs (predictions targets : list (list float))
  : Prop :=
  length predictions <> length targets \/
  exists i, (i < length predictions)%nat /\
            length (nth i predictions []) <> length (nth i targets []).

(** Some entry of a batch is below 0 or above 1. *)
Definition has_entry_outside_unit_interval (batch : list (list float))
  : Prop :=
  exists row x, In row batch /\ In x row /\ outside_unit_interval x = true.

(** The max-stabilised softmax of a vector of real logits, as the
    specification words it: subtract the greatest logit, exponentiate,
    and divide by the sum of the exponentials. *)
Definition Rlist_max (x : R) (l : list R) : R := fold_left Rmax l x.

Definition stable_softmax (logits : list R) : list R :=
  match logits with
  | [] => []
  | x :: rest =>
      let m := Rlist_max x rest in
      let z := Rsum (map (fun y => exp (y - m)) logits) in
      map (fun y => exp (y - m) / z) logits
  end.

(** The softmax Jacobian of the specification, for probabilities [p]:
    [p_i (1 - p_i)] on the diagonal and [- p_i p_j] off it. *)
Definition jacobian_of (p : list R) (i j : nat) : R :=
  if (i =? j)%nat then nth i p 0 * (1 - nth i p 0)
  else - (nth i p 0 * nth j p 0).

(** ** The remaining functions of the scalar type

    [std::max], [std::tanh], [std::sqrt] and [std::pow] with an
    integral exponent. *)

(** [std::max(a, b)] is [(a < b) ? b : a]. *)
Definition fmax (a b : float) : float := if flt a b then b else a.

Definition ftanh (x : float) : float :=
  match x with
  | Finite r => Finite (tanh r)
  | PosInf => Finite 1
  | NegInf => Finite (-1)
  | NaN => NaN
  end.

Definition fsqrt (x : float) : float :=
  match x with
  | Finite r => if Rlt_dec r 0 then NaN else Finite (sqrt r)
  | PosInf => PosInf
  | NegInf | NaN => NaN
  end.

Definition fpow (x : float) (n : nat) : float :=
  match n with
  | O => Finite 1
  | _ =>
      match x with
      | Finite r => Finite (r ^ n)
      | PosInf => PosInf
      | NegInf => if Nat.even n then PosInf else NegInf
      | NaN => NaN
      end
  end.

(** The macro [M_PI]. *)
Definition M_PI : float := Finite 3.14159265358979323846.

(** ** activation_functions.cpp, the remaining functions *)

(** [float relu(float x)] *)
Definition relu (x : float) : float := fmax x (Finite 0).

(** The conversions between [float] and [double]; they round in the
    code and are the identity in exact arithmetic. *)
Definition to_double (x : float) : float := x.
Definition to_float (x : float) : float := x.

(** [float leakyrelu(float x)]: [std::max(float(0.01 * x), x)], where
    [0.01] is a [double]: the product is taken in [double] and then
    converted to [float]. *)
Definition leakyrelu (x : float) : float :=
  fmax (to_float (fmul (Finite 0.01) (to_double x))) x.


(** [float dllib_tanh(float x)] *)
Definition dllib_tanh (x : float) : float := ftanh x.

(** [float elu(float x, float alpha)] *)
Definition elu (x alpha : float) : float :=
  if fgt x (of_int 0) then x
  else fmul alpha (fsub (fexp x) (Finite 1)).

(** [float softplus(float x, float alpha = 1.0f)]; [alpha] is not used. *)
Definition softplus (x alpha : float) : float :=
  flog (fadd (Finite 1) (fexp x)).

(** [float softsign(float x)] *)
Definition softsign (x : float) : float :=
  fdiv x (fadd (Finite 1) (fabs x)).

(** [float swish(float x)] *)
Definition swish (x : float) : float := fmul x (sigmoid x).

(** [float mish(float x)] *)
Definition mish (x : float) : float :=
  fmul x (ftanh (flog (fadd (Finite 1) (fexp x)))).

(** [float gelu(float x)] *)
Definition gelu (x : float) : float :=
  fmul (fmul (Finite 0.5) x)
       (fadd (Finite 1)
             (ftanh (fmul (fsqrt (fdiv (Finite 2) M_PI))
                          (fadd x (fmul (Finite 0.044715) (fpow x 3)))))).

(** [float gaussian(float x)] *)
Definition gaussian (x : float) : float := fexp (fneg (fpow x 2)).

(** ** activation_funcs_gradient.cpp, the remaining functions *)

(** [float relu_gradient(float x)] *)
Definition relu_gradient (x : float) : float :=
  if fgt x (of_int 0) then Finite 1 else Finite 0.

(** [float leakyrelu_gradient(float x, float alpha = 0.01f)] *)
Definition leakyrelu_gradient (x alpha : float) : float :=
  if fgt x (of_int 0) then Finite 1 else alpha.

(** [float prelu_gradient(float x, float alpha = 0.01f)] *)
Definition prelu_gradient (x alpha : float) : float :=
  if fgt x (of_int 0) then Finite 1 else alpha.

(** [float tanh_gradient(float x)] *)
Definition tanh_gradient (x : float) : float :=
  let tanh_x := ftanh x in
  fsub (Finite 1) (fmul tanh_x tanh_x).

(** [float elu_gradient(float x, float alpha = 1.0f)] *)
Definition elu_gradient (x alpha : float) : float :=
  if fgt x (of_int 0) then Finite 1
  else fmul alpha (fexp x).

(** [float softplus_gradient(float x)] *)
Definition softplus_gradient (x : float) : float :=
  fdiv (Finite 1) (fadd (Finite 1) (fexp (fneg x))).

(** [float softsign_gradient(float x)] *)
Definition softsign_gradient (x : float) : float :=
  let denom := fadd (Finite 1) (fabs x) in
  fdiv (Finite 1) (fmul denom denom).

(** [float swish_gradient(float x)] *)
Definition swish_gradient (x : float) : float :=
  let sig := fdiv (Finite 1) (fadd (Finite 1) (fexp (fneg x))) in
  fadd sig (fmul (fmul x sig) (fsub (Finite 1) sig)).

(** [float mish_gradient(float x)] *)
Definition mish_gradient (x : float) : float :=
  let exp_x := fexp x in
  let tanh_part := ftanh (flog (fadd (Finite 1) exp_x)) in
  let grad_tanh := fsub (Finite 1) (fmul tanh_part tanh_part) in
  fadd tanh_part
       (fmul (fdiv (fmul x exp_x) (fadd (Finite 1) exp_x)) grad_tanh).

(** [float gelu_gradient(float x)] *)
Definition gelu_gradient (x : float) : float :=
  let tanh_part :=
    ftanh (fmul (fsqrt (fdiv (Finite 2) M_PI))
                (fadd x (fmul (Finite 0.044715) (fpow x 3)))) in
  let grad_tanh := fsub (Finite 1) (fmul tanh_part tanh_part) in
  fadd (fmul (Finite 0.5) (fadd (Finite 1) tanh_part))
       (fmul (fmul (fmul (fmul (Finite 0.5) x)
                         (fsqrt (fdiv (Finite 2) M_PI)))
                   (fadd (Finite 1) (fmul (Finite 0.134145) (fpow x 2))))
             grad_tanh).

(** [float gaussian_gradient(float x)] *)
Definition gaussian_gradient (x : float) : float :=
  fmul (fmul (Finite (-2)) x) (fexp (fneg (fpow x 2))).

(** ** Further definitions that the statements use *)

(** The real number that a finite value holds. *)
Definition real_value (x : float) : R :=
  match x with
  | Finite r => r
  | _ => 0
  end.

Definition is_finite (x : float) : Prop := exists r, x = Finite r.

(** [gradient] gives, at every real number, the derivative of
    [activation] there, both being finite. *)
Definition is_derivative_of (gradient activation : float -> float) : Prop :=
  forall x : R,
    is_finite (activation (Finite x)) /\
    is_finite (gradient (Finite x)) /\
    derivable_pt_lim (fun y => real_value (activation (Finite y))) x
                     (real_value (gradient (Finite x))).

(** The one-hot encoding of the class [k] among [n] classes. *)
Definition one_hot (n k : nat) : list float :=
  map (fun j => if (j =? k)%nat then Finite 1 else Finite 0) (seq 0 n).

(** No entry of the vector fails the range test of the losses. *)
Definition all_inside_unit_interval (v : list float) : Prop :=
  Forall (fun x => outside_unit_interval x = false) v.

(** The terms [g p_i t_i] of two vectors, and the mean of a list. *)
Definition pairwise_terms (g : R -> R -> R) (p t : list R) : list R :=
  map (fun pt => g (fst pt) (snd pt)) (combine p t).

Definition mean_of (terms : list R) : R := Rsum terms / INR (length terms).


(** The one-hot targets of a batch whose samples have the classes [k]. *)
Definition one_hot_targets (predictions : list (list float)) (targets : list Z)
  : list (list float) :=
  map (fun pk => one_hot (length (fst pk)) (Z.to_nat (snd pk)))
      (combine predictions targets).

(** The terms of the binary cross-entropy and of the hinge loss. *)
Definition cross_entropy_term (p t : R) : R :=
  - (t * ln p + (1 - t) * ln (1 - p)).


(** * Properties *)

(** ** Arithmetic on finite values *)

Lemma fdiv_finite (a b : R) :
  b <> 0 -> fdiv (Finite a) (Finite b) = Finite (a / b).
Proof.
  intros Hb. unfold fdiv. destruct (Req_dec_T b 0) as [E | _].
  - contradiction.
  - reflexivity.
Qed.

Lemma fdiv_zero_zero : fdiv (Finite 0) (Finite 0) = NaN.
Proof.
  unfold fdiv. destruct (Req_dec_T 0 0) as [_ | N]; [ | now elim N ].
  unfold Rsign. destruct (Rlt_dec 0 0) as [L | _]; [ lra | reflexivity ].
Qed.

Lemma flt_finite_true (a b : R) : a < b -> flt (Finite a) (Finite b) = true.
Proof. intros H. unfold flt. destruct (Rlt_dec a b); [ reflexivity | lra ]. Qed.

Lemma flt_finite_false (a b : R) : b <= a -> flt (Finite a) (Finite b) = false.
Proof. intros H. unfold flt. destruct (Rlt_dec a b); [ lra | reflexivity ]. Qed.

Lemma feq_finite_true (a b : R) : a = b -> feq (Finite a) (Finite b) = true.
Proof.
  intros H. unfold feq. destruct (Req_dec_T a b); [ reflexivity | contradiction ].
Qed.

Lemma feq_finite_false (a b : R) : a <> b -> feq (Finite a) (Finite b) = false.
Proof.
  intros H. unfold feq. destruct (Req_dec_T a b); [ contradiction | reflexivity ].
Qed.

(** ** Sigmoid *)

Lemma sigmoid_finite (x : R) :
  sigmoid (Finite x) = Finite (1 / (1 + exp (- x))).
Proof.
  unfold sigmoid. cbn [fneg fexp fadd].
  apply fdiv_finite. pose proof (exp_pos (- x)). lra.
Qed.

Lemma binary_step_gradient_nonzero (x : R) :
  x <> 0 -> binary_step_gradient (Finite x) = Finite 1.
Proof.
  intros Hx. unfold binary_step_gradient, of_int.
  rewrite feq_finite_false by exact Hx. reflexivity.
Qed.

(** C1, at the input 1: [binary_step_gradient] returns 1, and so not 0,
    at the input 1; it returns 0 at the input 0. *)
Theorem binary_step_gradient_at_one :
  binary_step_gradient (Finite 1) = Finite 1 /\
  binary_step_gradient (Finite 1) <> Finite 0 /\
  binary_step_gradient (Finite 0) = Finite 0.
Proof.
  assert (E : binary_step_gradient (Finite 1) = Finite 1)
    by (apply binary_step_gradient_nonzero; lra).
  split; [ exact E | split ].
  - rewrite E. intros [= H]. lra.
  - unfold binary_step_gradient, of_int.
    rewrite feq_finite_true by reflexivity. reflexivity.
Qed.

(** C5: for every finite [x], [sigmoid_gradient x] is
    [sigmoid x * (1 - sigmoid x)], computed with the library's own
    [sigmoid]; in exact arithmetic both are [s * (1 - s)] for the real
    number [s = 1 / (1 + e^-x)]. *)
Theorem sigmoid_gradient_is_sigmoid_composition (x : R) :
  sigmoid_gradient (Finite x) =
    fmul (sigmoid (Finite x)) (fsub (Finite 1) (sigmoid (Finite x))) /\
  exists s : R,
    s = 1 / (1 + exp (- x)) /\
    sigmoid (Finite x) = Finite s /\
    sigmoid_gradient (Finite x) = Finite (s * (1 - s)).
Proof.
  split.
  - reflexivity.
  - exists (1 / (1 + exp (- x))). split; [ reflexivity | ].
    split; [ apply sigmoid_finite | ].
    change (sigmoid_gradient (Finite x))
      with (fmul (sigmoid (Finite x)) (fsub (Finite 1) (sigmoid (Finite x)))).
    rewrite sigmoid_finite. reflexivity.
Qed.

(** C6: for every finite [x], [sigmoid x + sigmoid (-x)] is exactly 1. *)
Theorem sigmoid_plus_sigmoid_neg (x : R) :
  fadd (sigmoid (Finite x)) (sigmoid (fneg (Finite x))) = Finite 1.
Proof.
  cbn [fneg]. rewrite !sigmoid_finite. cbn [fadd]. f_equal.
  rewrite Ropp_involutive, exp_Ropp.
  pose proof (exp_pos x) as He.
  assert (Hi : 0 < / exp x) by (apply Rinv_0_lt_compat; exact He).
  field. split; lra.
Qed.

(** ** Loops *)

Section ForLoop.
Context {S : Type}.
Variable body : nat -> S -> result S.

(** A loop whose body returns at every index returns. *)
Lemma for_loop_returns (start count : nat) (s : S) :
  (forall i s', (start <= i < start + count)%nat -> returns (body i s')) ->
  returns (for_loop body start count s).
Proof.
  revert start s. induction count as [ | count IH ]; intros start s Hbody.
  - exists s. reflexivity.
  - cbn [for_loop].
    destruct (Hbody start s ltac:(lia)) as [s' Hs']. rewrite Hs'. cbn [bind].
    apply IH. intros i s'' Hi. apply Hbody. lia.
Qed.

(** An invariant indexed by the loop counter: if it holds on entry and
    every iteration returns and carries it to the next index, the loop
    returns and the invariant holds on exit. *)
Lemma for_loop_invariant (P : nat -> S -> Prop) (start count : nat) (s : S) :
  P start s ->
  (forall i s', (start <= i < start + count)%nat -> P i s' ->
     exists s'', body i s' = Return s'' /\ P (Datatypes.S i) s'') ->
  exists s', for_loop body start count s = Return s' /\ P (start + count)%nat s'.
Proof.
  revert start s. induction count as [ | count IH ]; intros start s H0 Hstep.
  - exists s. rewrite Nat.add_0_r. split; [ reflexivity | exact H0 ].
  - cbn [for_loop].
    destruct (Hstep start s ltac:(lia) H0) as [s1 [E1 P1]].
    rewrite E1. cbn [bind].
    replace (start + Datatypes.S count)%nat
      with (Datatypes.S start + count)%nat by lia.
    apply IH; [ exact P1 | ].
    intros i s' Hi. apply Hstep. lia.
Qed.

(** The loop throws what its body throws at index [i] when every
    earlier iteration returns. *)
Lemma for_loop_throws_at (e : exception) (i start count : nat) (s : S) :
  (start <= i < start + count)%nat ->
  (forall k s', (start <= k < i)%nat -> returns (body k s')) ->
  (forall s', body i s' = Throw e) ->
  for_loop body start count s = Throw e.
Proof.
  revert start s. induction count as [ | count IH ]; intros start s Hi Hbefore Hat.
  - lia.
  - cbn [for_loop]. destruct (Nat.eq_dec start i) as [-> | Hne].
    + rewrite Hat. reflexivity.
    + destruct (Hbefore start s ltac:(lia)) as [s' Hs']. rewrite Hs'. cbn [bind].
      apply IH; [ lia | | exact Hat ].
      intros k s'' Hk. apply Hbefore. lia.
Qed.

(** Whatever the loop throws was thrown by its body. *)
Lemma for_loop_throw_inv (Q : exception -> Prop) (start count : nat) (s : S)
    (e : exception) :
  (forall i s' e', (start <= i < start + count)%nat ->
     body i s' = Throw e' -> Q e') ->
  for_loop body start count s = Throw e -> Q e.
Proof.
  revert start s. induction count as [ | count IH ]; intros start s Hbody Hthrow.
  - discriminate.
  - cbn [for_loop] in Hthrow. destruct (body start s) as [s' | e'] eqn:E.
    + cbn [bind] in Hthrow. apply (IH (Datatypes.S start) s'); [ | exact Hthrow ].
      intros i s'' e'' Hi. apply Hbody. lia.
    + cbn [bind] in Hthrow. injection Hthrow as <-.
      apply (Hbody start s e'); [ lia | exact E ].
Qed.

(** If the body throws at some index whatever the state, and throws
    nothing but exceptions satisfying [Q], the loop throws one. *)
Lemma for_loop_must_throw (Q : exception -> Prop) (i start count : nat) (s : S) :
  (start <= i < start + count)%nat ->
  (forall s', exists e, body i s' = Throw e) ->
  (forall k s' e, (start <= k < start + count)%nat ->
     body k s' = Throw e -> Q e) ->
  exists e, for_loop body start count s = Throw e /\ Q e.
Proof.
  revert start s. induction count as [ | count IH ]; intros start s Hi Hat Hall.
  - lia.
  - cbn [for_loop]. destruct (body start s) as [s' | e] eqn:E.
    + cbn [bind]. destruct (Nat.eq_dec start i) as [-> | Hne].
      * destruct (Hat s) as [e He]. congruence.
      * apply IH; [ lia | exact Hat | ].
        intros k s'' e Hk. apply Hall. lia.
    + cbn [bind]. exists e. split; [ reflexivity | ].
      apply (Hall start s e); [ lia | exact E ].
Qed.
End ForLoop.

(** [loop_invariant P s' Hloop HP] finds the loop of the goal and applies
    [for_loop_invariant] to it with the invariant [P]: it leaves the
    invariant on entry, its preservation by the body, and the goal with
    the loop known to return a state [s'] satisfying [P]. *)
Ltac loop_invariant P s' Hloop HP :=
  match goal with
  | |- context [for_loop ?body ?start ?count ?s] =>
      let H0 := fresh "Hentry" in
      let Hstep := fresh "Hstep" in
      assert (H0 : P start s);
      [ | assert (Hstep : forall i x, (start <= i < start + count)%nat -> P i x ->
                     exists x', body i x = Return x' /\ P (Datatypes.S i) x');
          [ clear H0
          | destruct (for_loop_invariant body P start count s H0 Hstep)
              as [s' [Hloop HP]]; clear H0 Hstep ] ]
  end.

(** [loop_must_throw i e He] finds the loop of the goal and applies
    [for_loop_must_throw] to it at the index [i]: it leaves the bounds
    on [i], the throw of the body at [i], and the goal with the loop
    known to throw an exception [e]. *)
Ltac loop_must_throw i e He :=
  match goal with
  | |- context [for_loop ?body ?start ?count ?s] =>
      destruct (for_loop_must_throw body (fun _ => True) i start count s)
        as [e [He _]]; [ | | trivial | ]
  end.

(** ** Vectors of finite values *)

Lemma nth_map_Finite (l : list R) (i : nat) :
  (i < length l)%nat -> nth i (map Finite l) NaN = Finite (nth i l 0).
Proof.
  intros Hi. rewrite nth_indep with (d' := Finite 0).
  - apply map_nth.
  - rewrite length_map. exact Hi.
Qed.

Lemma of_size_nonzero (n : nat) : n <> 0%nat -> INR n <> 0.
Proof. intros Hn. apply not_0_INR. exact Hn. Qed.

Lemma length_nonzero {A : Type} (l : list A) : l <> [] -> length l <> 0%nat.
Proof. destruct l; [ congruence | discriminate ]. Qed.

Lemma fdiv_by_size (a : R) (n : nat) :
  n <> 0%nat -> fdiv (Finite a) (of_size n) = Finite (a / INR n).
Proof. intros Hn. apply fdiv_finite, of_size_nonzero, Hn. Qed.

(** ** Empty input *)

(** C9: only [binary_cross_entropy] rejects empty input (whatever the
    targets, with the exception classified as ShapeMismatch); each other
    loss, on two empty collections, passes its size check, runs no
    iteration and returns the zero accumulator divided by the zero
    length, which is NaN and not an error. *)
Theorem empty_input_only_rejected_by_binary_cross_entropy :
  (forall targets,
     binary_cross_entropy [] targets = Throw (invalid_argument empty_msg)) /\
  kind_of (invalid_argument empty_msg) = ShapeMismatch /\
  mean_squared_error [] [] = Return (fdiv (Finite 0) (of_size 0)) /\
  mean_absolute_error [] [] = Return (fdiv (Finite 0) (of_size 0)) /\
  categorical_cross_entropy [] [] = Return (fdiv (Finite 0) (of_size 0)) /\
  sparse_categorical_cross_entropy [] [] =
    Return (fdiv (Finite 0) (of_size 0)) /\
  kullback_leibler_divergence [] [] = Return (fdiv (Finite 0) (of_size 0)) /\
  hinge_loss [] [] = Return (fdiv (Finite 0) (of_size 0)) /\
  (forall delta, huber_loss [] [] delta = Return (fdiv (Finite 0) (of_size 0))) /\
  fdiv (Finite 0) (of_size 0) = NaN.
Proof.
  repeat split; try reflexivity.
  exact fdiv_zero_zero.
Qed.

(** ** Identical predictions and targets *)

Lemma mean_squared_error_same (p : list R) :
  p <> [] ->
  mean_squared_error (map Finite p) (map Finite p) = Return (Finite 0).
Proof.
  intros Hp. unfold mean_squared_error.
  rewrite Nat.eqb_refl. cbn [negb].
  loop_invariant (fun (_ : nat) mse => mse = Finite 0) mse Hloop Hmse;
    [ reflexivity | | ].
  - intros i s' Hi ->. rewrite length_map in Hi.
    eexists. split; [ reflexivity | ].
    rewrite nth_map_Finite by lia. cbn. f_equal. ring.
  - rewrite Hloop. cbn [bind]. subst mse. rewrite length_map.
    rewrite fdiv_by_size by (apply length_nonzero; exact Hp).
    do 2 f_equal. unfold Rdiv. ring.
Qed.

Lemma mean_absolute_error_same (p : list R) :
  p <> [] ->
  mean_absolute_error (map Finite p) (map Finite p) = Return (Finite 0).
Proof.
  intros Hp. unfold mean_absolute_error.
  rewrite Nat.eqb_refl. cbn [negb].
  loop_invariant (fun (_ : nat) mae => mae = Finite 0) mae Hloop Hmae;
    [ reflexivity | | ].
  - intros i s' Hi ->. rewrite length_map in Hi.
    eexists. split; [ reflexivity | ].
    rewrite nth_map_Finite by lia. cbn. f_equal.
    rewrite Rplus_opp_r, Rabs_R0. ring.
  - rewrite Hloop. cbn [bind]. subst mae. rewrite length_map.
    rewrite fdiv_by_size by (apply length_nonzero; exact Hp).
    do 2 f_equal. unfold Rdiv. ring.
Qed.

(** C8, for non-empty vectors of finite values: on every such vector
    [p], [mean_squared_error p p] and [mean_absolute_error p p] return 0. *)
Theorem loss_of_identical_vectors_is_zero (p : list R) :
  p <> [] ->
  mean_squared_error (map Finite p) (map Finite p) = Return (Finite 0) /\
  mean_absolute_error (map Finite p) (map Finite p) = Return (Finite 0).
Proof.
  intros Hp. split.
  - apply mean_squared_error_same, Hp.
  - apply mean_absolute_error_same, Hp.
Qed.

Lemma loss_of_identical_vectors_is_zero_witness :
  mean_squared_error [Finite 3; Finite (-2)] [Finite 3; Finite (-2)]
    = Return (Finite 0) /\
  mean_absolute_error [Finite 3; Finite (-2)] [Finite 3; Finite (-2)]
    = Return (Finite 0).
Proof.
  apply (loss_of_identical_vectors_is_zero [3; -2]). discriminate.
Defined.

(** C8, on the empty vector: both losses return NaN, the
    quotient of the zero accumulator by the zero length, and not 0; a
    vector holding an infinity gives NaN as well. *)
Lemma loss_of_identical_vectors_not_zero_on_empty :
  mean_squared_error [] [] = Return NaN /\
  mean_absolute_error [] [] = Return NaN /\
  mean_squared_error [] [] <> Return (Finite 0) /\
  mean_absolute_error [] [] <> Return (Finite 0) /\
  mean_squared_error [PosInf] [PosInf] = Return NaN.
Proof.
  assert (E1 : mean_squared_error [] [] = Return NaN).
  { change (Return (fdiv (Finite 0) (Finite 0)) = @Return float NaN).
    rewrite fdiv_zero_zero. reflexivity. }
  assert (E2 : mean_absolute_error [] [] = Return NaN).
  { change (Return (fdiv (Finite 0) (Finite 0)) = @Return float NaN).
    rewrite fdiv_zero_zero. reflexivity. }
  repeat split.
  - exact E1.
  - exact E2.
  - rewrite E1. discriminate.
  - rewrite E2. discriminate.
Qed.

(** ** Huber loss *)


Lemma Rsum_app (l1 l2 : list R) : Rsum (l1 ++ l2) = Rsum l1 + Rsum l2.
Proof.
  induction l1 as [ | x l1 IH ]; cbn [Rsum app].
  - ring.
  - rewrite IH. ring.
Qed.

Lemma firstn_succ {A : Type} (d : A) (l : list A) (i : nat) :
  (i < length l)%nat -> firstn (Datatypes.S i) l = firstn i l ++ [nth i l d].
Proof.
  revert i. induction l as [ | x l IH ]; intros i Hi; cbn in Hi.
  - lia.
  - destruct i as [ | i ]; [ reflexivity | ].
    cbn [firstn nth app]. rewrite <- IH by lia. reflexivity.
Qed.






(** ** Results of calls *)

Lemma returns_Return {A : Type} (v : A) : returns (Return v).
Proof. exists v. reflexivity. Qed.

Lemma returns_bind {A B : Type} (r : result A) (k : A -> result B) :
  returns r -> (forall v, returns (k v)) -> returns (bind r k).
Proof. intros [v ->] Hk. apply Hk. Qed.

Lemma raises_Throw {A : Type} (e : exception) (k : error_kind) :
  kind_of e = k -> raises (@Throw A e) k.
Proof. intros Hk. exists e. split; [ reflexivity | exact Hk ]. Qed.

Lemma bind_Throw {A B : Type} (r : result A) (f : A -> result B)
    (e : exception) :
  r = Throw e -> bind r f = Throw e.
Proof. intros ->. reflexivity. Qed.

Lemma bind_Throw_inv {A B : Type} (r : result A) (f : A -> B) (e : exception) :
  bind r (fun v => Return (f v)) = Throw e -> r = Throw e.
Proof. destruct r; cbn; [ discriminate | intros [= ->]; reflexivity ]. Qed.

Lemma returns_not_raises {A : Type} (r : result A) (k : error_kind) :
  returns r -> ~ raises r k.
Proof. intros [v ->] [e [H _]]. discriminate. Qed.

Lemma size_check_fails (n m : nat) : n <> m -> negb (n =? m)%nat = true.
Proof. intros H. apply Nat.eqb_neq in H. rewrite H. reflexivity. Qed.

Lemma size_check_passes (n m : nat) : n = m -> negb (n =? m)%nat = false.
Proof. intros ->. rewrite Nat.eqb_refl. reflexivity. Qed.

Lemma batch_shape_agrees (p t : list (list float)) :
  ~ batch_shape_differs p t ->
  length p = length t /\
  forall i, (i < length p)%nat -> length (nth i p []) = length (nth i t []).
Proof.
  intros H. split.
  - destruct (Nat.eq_dec (length p) (length t)) as [E | N]; [ exact E | ].
    elim H. left. exact N.
  - intros i Hi.
    destruct (Nat.eq_dec (length (nth i p [])) (length (nth i t [])))
      as [E | N]; [ exact E | ].
    elim H. right. exists i. split; assumption.
Qed.

(** ** Categorical cross-entropy *)

(** The loop over the classes of one sample never throws. *)
Lemma categorical_cross_entropy_sample_returns (p t : list float) (cce : float) :
  returns
    (for_loop
       (fun j cce =>
          if feq (nth j t NaN) (Finite 1) then
            Return (fsub cce (flog (nth j p NaN)))
          else Return cce)
       0 (length p) cce).
Proof.
  apply for_loop_returns. intros j s _.
  destruct (feq _ _); apply returns_Return.
Qed.

Lemma categorical_cross_entropy_returns (p t : list (list float)) :
  ~ batch_shape_differs p t -> returns (categorical_cross_entropy p t).
Proof.
  intros H. apply batch_shape_agrees in H as [Hlen Hrows].
  unfold categorical_cross_entropy. rewrite size_check_passes by exact Hlen.
  apply returns_bind; [ | intros v; apply returns_Return ].
  apply for_loop_returns. intros i s Hi.
  rewrite size_check_passes by (apply Hrows; lia).
  apply categorical_cross_entropy_sample_returns.
Qed.

Lemma categorical_cross_entropy_throws_shape (p t : list (list float))
    (e : exception) :
  categorical_cross_entropy p t = Throw e -> kind_of e = ShapeMismatch.
Proof.
  unfold categorical_cross_entropy.
  destruct (negb (length p =? length t)%nat).
  - intros [= <-]. reflexivity.
  - intros H. apply bind_Throw_inv in H.
    eapply (for_loop_throw_inv _ (fun e => kind_of e = ShapeMismatch));
      [ | exact H ].
    cbv beta. intros i s e' _.
    destruct (negb (length (nth i p []) =? length (nth i t []))%nat).
    + intros [= <-]. reflexivity.
    + intros Hin.
      destruct (categorical_cross_entropy_sample_returns
                  (nth i p []) (nth i t []) s) as [v Hv].
      rewrite Hv in Hin. discriminate.
Qed.

Lemma categorical_cross_entropy_shape_mismatch (p t : list (list float)) :
  batch_shape_differs p t -> raises (categorical_cross_entropy p t) ShapeMismatch.
Proof.
  intros Hdiff.
  assert (Hthrows : exists e, categorical_cross_entropy p t = Throw e).
  { unfold categorical_cross_entropy.
    destruct Hdiff as [Hlen | [i [Hi Hrow]]].
    - rewrite size_check_fails by exact Hlen. eexists. reflexivity.
    - destruct (negb (length p =? length t)%nat); [ eexists; reflexivity | ].
      loop_must_throw i e He.
      + lia.
      + intros s. rewrite size_check_fails by exact Hrow. eexists. reflexivity.
      + rewrite He. eexists. reflexivity. }
  destruct Hthrows as [e He]. exists e. split; [ exact He | ].
  apply (categorical_cross_entropy_throws_shape p t), He.
Qed.

Lemma flog_positive (r : R) : 0 < r -> flog (Finite r) = Finite (ln r).
Proof.
  intros Hr. unfold flog.
  destruct (Rlt_dec r 0); [ lra | ].
  destruct (Req_dec_T r 0); [ lra | reflexivity ].
Qed.

Lemma outside_unit_interval_above (r : R) :
  1 < r -> outside_unit_interval (Finite r) = true.
Proof.
  intros Hr. unfold outside_unit_interval, fgt.
  rewrite (flt_finite_true 1 r) by exact Hr. apply orb_true_r.
Qed.

Lemma outside_unit_interval_inside (r : R) :
  0 <= r <= 1 -> outside_unit_interval (Finite r) = false.
Proof.
  intros Hr. unfold outside_unit_interval, fgt.
  rewrite !flt_finite_false by lra. reflexivity.
Qed.

(** C2, what the function checks: [categorical_cross_entropy] compares
    no entry with the bounds of [0,1]: whatever the entries, it returns
    a value when the two batches agree in shape and raises ShapeMismatch
    when they differ; it never raises DomainViolation. *)
Theorem categorical_cross_entropy_checks_shape_only (p t : list (list float)) :
  (~ batch_shape_differs p t -> returns (categorical_cross_entropy p t)) /\
  (batch_shape_differs p t ->
   raises (categorical_cross_entropy p t) ShapeMismatch) /\
  ~ raises (categorical_cross_entropy p t) DomainViolation.
Proof.
  split; [ apply categorical_cross_entropy_returns | split ].
  - apply categorical_cross_entropy_shape_mismatch.
  - intros [e [He Hk]].
    apply categorical_cross_entropy_throws_shape in He. congruence.
Qed.

Lemma categorical_cross_entropy_checks_shape_only_witness :
  returns (categorical_cross_entropy [[Finite (3/2); Finite (-1)]]
                                     [[Finite 1; Finite 0]]) /\
  raises (categorical_cross_entropy [[Finite (3/2); Finite (-1)]]
                                    [[Finite 1]]) ShapeMismatch.
Proof.
  split.
  - apply (categorical_cross_entropy_checks_shape_only
             [[Finite (3/2); Finite (-1)]] [[Finite 1; Finite 0]]).
    intros [Hlen | [i [Hi Hrow]]].
    + apply Hlen. reflexivity.
    + cbn in Hi. assert (i = 0%nat) as -> by lia. apply Hrow. reflexivity.
  - apply (categorical_cross_entropy_checks_shape_only
             [[Finite (3/2); Finite (-1)]] [[Finite 1]]).
    right. exists 0%nat. split; [ cbn; lia | cbn; discriminate ].
Defined.

(** C2, on an out-of-range prediction: on the one-sample batch [[1.5]]
    with the target [[1.0]] the prediction lies above 1, and the call
    returns the number [-ln 1.5] instead of raising DomainViolation. *)
Lemma categorical_cross_entropy_accepts_out_of_range :
  has_entry_outside_unit_interval [[Finite (3/2)]] /\
  categorical_cross_entropy [[Finite (3/2)]] [[Finite 1]]
    = Return (Finite (- ln (3/2))) /\
  ~ raises (categorical_cross_entropy [[Finite (3/2)]] [[Finite 1]])
      DomainViolation.
Proof.
  assert (E : categorical_cross_entropy [[Finite (3/2)]] [[Finite 1]]
              = Return (Finite (- ln (3/2)))).
  { unfold categorical_cross_entropy. cbn [length Nat.eqb negb for_loop nth bind].
    rewrite feq_finite_true by reflexivity.
    rewrite flog_positive by lra. cbn [fsub fneg fadd bind].
    unfold of_size. rewrite fdiv_finite by (cbn; lra).
    do 2 f_equal. cbn [INR]. field. }
  split; [ | split ].
  - exists [Finite (3/2)], (Finite (3/2)).
    split; [ now left | split; [ now left | ] ].
    apply outside_unit_interval_above. lra.
  - exact E.
  - rewrite E. apply returns_not_raises, returns_Return.
Qed.

(** ** Shape checks *)

(** The loop of [kullback_leibler_divergence] over the classes of one
    sample returns when no entry of the sample fails the range test. *)
Lemma kullback_leibler_divergence_sample_returns (p t : list float)
    (kl_div : float) :
  length p = length t ->
  Forall (fun x => outside_unit_interval x = false) p ->
  Forall (fun x => outside_unit_interval x = false) t ->
  returns
    (for_loop
       (fun j kl_div =>
          if outside_unit_interval (nth j p NaN) then
            Throw (out_of_range predictions_range_msg)
          else if outside_unit_interval (nth j t NaN) then
            Throw (out_of_range targets_range_msg)
          else if feq (nth j t NaN) (Finite 0) then
            Return kl_div
          else
            Return (fadd kl_div
                      (fmul (nth j t NaN)
                         (flog (fdiv (nth j t NaN) (nth j p NaN))))))
       0 (length p) kl_div).
Proof.
  intros Hlen Hp Ht. apply for_loop_returns. intros j s Hj.
  rewrite Forall_forall in Hp, Ht.
  rewrite (Hp (nth j p NaN)) by (apply nth_In; lia).
  rewrite (Ht (nth j t NaN)) by (apply nth_In; lia).
  destruct (feq _ _); apply returns_Return.
Qed.

(** A class-count mismatch at sample [i] is reported when the samples
    before it agree in class count and pass the range tests. *)
Lemma kullback_leibler_divergence_class_count (p t : list (list float))
    (i : nat) :
  length p = length t ->
  (i < length p)%nat ->
  length (nth i p []) <> length (nth i t []) ->
  (forall k, (k < i)%nat ->
     length (nth k p []) = length (nth k t []) /\
     Forall (fun x => outside_unit_interval x = false) (nth k p []) /\
     Forall (fun x => outside_unit_interval x = false) (nth k t [])) ->
  kullback_leibler_divergence p t = Throw (invalid_argument class_count_msg).
Proof.
  intros Hlen Hi Hrow Hbefore. unfold kullback_leibler_divergence.
  rewrite size_check_passes by exact Hlen.
  apply bind_Throw. apply for_loop_throws_at with (i := i).
  - lia.
  - intros k s Hk. destruct (Hbefore k ltac:(lia)) as [Hk1 [Hk2 Hk3]].
    rewrite size_check_passes by exact Hk1.
    apply kullback_leibler_divergence_sample_returns; assumption.
  - intros s. rewrite size_check_fails by exact Hrow. reflexivity.
Qed.

(** Batches that differ in shape never make
    [kullback_leibler_divergence] return a value. *)
Lemma kullback_leibler_divergence_shape_throws (p t : list (list float)) :
  batch_shape_differs p t ->
  exists e, kullback_leibler_divergence p t = Throw e.
Proof.
  intros [Hlen | [i [Hi Hrow]]]; unfold kullback_leibler_divergence.
  - rewrite size_check_fails by exact Hlen. eexists. reflexivity.
  - destruct (negb (length p =? length t)%nat); [ eexists; reflexivity | ].
    loop_must_throw i e He.
    + lia.
    + intros s. rewrite size_check_fails by exact Hrow.
      eexists. reflexivity.
    + rewrite He. eexists. reflexivity.
Qed.

Lemma size_check_throws {A : Type} (n m : nat) (r : result A) :
  n <> m ->
  (if negb (n =? m)%nat then Throw (invalid_argument same_size_msg) else r)
    = Throw (invalid_argument same_size_msg).
Proof. intros H. rewrite size_check_fails by exact H. reflexivity. Qed.

(** With as many samples on both sides, a sample whose class counts
    differ makes [categorical_cross_entropy] throw the class-count
    exception: its loops throw nothing else. *)
Lemma categorical_cross_entropy_class_count (p t : list (list float)) :
  length p = length t ->
  (exists i, (i < length p)%nat /\
             length (nth i p []) <> length (nth i t [])) ->
  categorical_cross_entropy p t = Throw (invalid_argument class_count_msg).
Proof.
  intros Hlen [i [Hi Hrow]]. unfold categorical_cross_entropy.
  rewrite size_check_passes by exact Hlen. apply bind_Throw.
  match goal with
  | |- for_loop ?body ?start ?count ?s = _ =>
      destruct (for_loop_must_throw body
                  (fun e => e = invalid_argument class_count_msg)
                  i start count s) as [e [He ->]]
  end.
  - lia.
  - intros s. rewrite size_check_fails by exact Hrow. eexists. reflexivity.
  - intros k s e _.
    destruct (negb (length (nth k p []) =? length (nth k t []))%nat).
    + intros [= <-]. reflexivity.
    + intros Hin.
      destruct (categorical_cross_entropy_sample_returns
                  (nth k p []) (nth k t []) s) as [v Hv].
      rewrite Hv in Hin. discriminate.
  - exact He.
Qed.

(** C3, with the exceptions thrown: when the numbers of samples differ,
    every multi-argument loss throws its size exception, whatever the
    collections hold (no test on their contents comes first);
    [binary_cross_entropy] alone tests emptiness before, and throws its
    emptiness exception when the predictions are empty.  The class
    counts of a sample are compared when the loop reaches that sample:
    with as many samples on both sides, [categorical_cross_entropy]
    throws the class-count exception as soon as some sample differs;
    [kullback_leibler_divergence] never returns a value on batches that
    differ in shape, and throws the class-count exception for the first
    sample whose class counts differ when the samples before it agree in
    class count and hold no entry outside [0,1].  The three exceptions
    are of the kind ShapeMismatch. *)
Theorem shape_mismatch_is_raised :
  (forall p t, length p <> length t ->
     mean_squared_error p t = Throw (invalid_argument same_size_msg)) /\
  (forall p t, length p <> length t ->
     mean_absolute_error p t = Throw (invalid_argument same_size_msg)) /\
  (forall p t, length p <> length t ->
     binary_cross_entropy p t
       = Throw (invalid_argument
                  (match p with [] => empty_msg | _ :: _ => same_size_msg end))) /\
  (forall p t delta, length p <> length t ->
     huber_loss p t delta = Throw (invalid_argument same_size_msg)) /\
  (forall p t, length p <> length t ->
     hinge_loss p t = Throw (invalid_argument same_size_msg)) /\
  (forall p t, length p <> length t ->
     sparse_categorical_cross_entropy p t
       = Throw (invalid_argument same_size_msg)) /\
  (forall p t, length p <> length t ->
     categorical_cross_entropy p t = Throw (invalid_argument same_size_msg)) /\
  (forall p t, length p <> length t ->
     kullback_leibler_divergence p t
       = Throw (invalid_argument same_size_msg)) /\
  (forall p t, length p = length t ->
     (exists i, (i < length p)%nat /\
                length (nth i p []) <> length (nth i t [])) ->
     categorical_cross_entropy p t
       = Throw (invalid_argument class_count_msg)) /\
  (forall p t, batch_shape_differs p t ->
     exists e, kullback_leibler_divergence p t = Throw e) /\
  (forall p t i,
     length p = length t ->
     (i < length p)%nat ->
     length (nth i p []) <> length (nth i t []) ->
     (forall k, (k < i)%nat ->
        length (nth k p []) = length (nth k t []) /\
        Forall (fun x => outside_unit_interval x = false) (nth k p []) /\
        Forall (fun x => outside_unit_interval x = false) (nth k t [])) ->
     kullback_leibler_divergence p t
       = Throw (invalid_argument class_count_msg)) /\
  kind_of (invalid_argument same_size_msg) = ShapeMismatch /\
  kind_of (invalid_argument empty_msg) = ShapeMismatch /\
  kind_of (invalid_argument class_count_msg) = ShapeMismatch.
Proof.
  repeat match goal with |- _ /\ _ => split end; try reflexivity.
  - intros p t H. apply size_check_throws, H.
  - intros p t H. apply size_check_throws, H.
  - intros p t H. unfold binary_cross_entropy.
    destruct p as [ | x p ]; [ reflexivity | ].
    change (length (x :: p) =? 0)%nat with false. cbv iota.
    apply size_check_throws, H.
  - intros p t delta H. apply size_check_throws, H.
  - intros p t H. apply size_check_throws, H.
  - intros p t H. apply size_check_throws, H.
  - intros p t H. apply size_check_throws, H.
  - intros p t H. apply size_check_throws, H.
  - apply categorical_cross_entropy_class_count.
  - apply kullback_leibler_divergence_shape_throws.
  - apply kullback_leibler_divergence_class_count.
Qed.

Lemma shape_mismatch_is_raised_witness :
  mean_squared_error [Finite 1; Finite 2; Finite 3] [Finite 1; Finite 2]
    = Throw (invalid_argument same_size_msg) /\
  binary_cross_entropy [] [Finite 1] = Throw (invalid_argument empty_msg) /\
  categorical_cross_entropy [[Finite (1/2)]; [Finite (1/10); Finite (1/5)]]
                            [[Finite 1]; [Finite (1/10)]]
    = Throw (invalid_argument class_count_msg) /\
  kullback_leibler_divergence
    [[Finite (1/2)]; [Finite (1/10); Finite (1/5)]]
    [[Finite 1]; [Finite (1/10)]]
    = Throw (invalid_argument class_count_msg).
Proof.
  pose proof shape_mismatch_is_raised
    as [Hmse [_ [Hbce [_ [_ [_ [_ [_ [Hcce [_ [Hkl _]]]]]]]]]]].
  split; [ | split; [ | split ] ].
  - apply Hmse. cbn. discriminate.
  - apply (Hbce [] [Finite 1]). cbn. discriminate.
  - apply Hcce; [ reflexivity | ].
    exists 1%nat. split; [ cbn; lia | cbn; discriminate ].
  - apply Hkl with (i := 1%nat).
    + reflexivity.
    + cbn. lia.
    + cbn. discriminate.
    + intros k Hk. assert (k = 0%nat) as -> by lia. cbn [nth length].
      split; [ reflexivity | split ].
      * constructor; [ | constructor ].
        apply outside_unit_interval_inside. lra.
      * constructor; [ | constructor ].
        apply outside_unit_interval_inside. lra.
Defined.

(** C3, range test before class count: the second samples of these two
    batches differ in class count, yet [kullback_leibler_divergence]
    raises DomainViolation and not ShapeMismatch, for the prediction 1.5
    of the first sample: the range test of a sample runs before the
    class counts of the next one are compared. *)
Lemma kullback_leibler_divergence_range_before_shape :
  batch_shape_differs [[Finite (3/2)]; [Finite (1/10); Finite (1/5)]]
                      [[Finite 1]; [Finite (1/10)]] /\
  kullback_leibler_divergence
    [[Finite (3/2)]; [Finite (1/10); Finite (1/5)]]
    [[Finite 1]; [Finite (1/10)]]
    = Throw (out_of_range predictions_range_msg) /\
  kind_of (out_of_range predictions_range_msg) = DomainViolation /\
  ~ raises (kullback_leibler_divergence
              [[Finite (3/2)]; [Finite (1/10); Finite (1/5)]]
              [[Finite 1]; [Finite (1/10)]]) ShapeMismatch.
Proof.
  assert (E : kullback_leibler_divergence
                [[Finite (3/2)]; [Finite (1/10); Finite (1/5)]]
                [[Finite 1]; [Finite (1/10)]]
              = Throw (out_of_range predictions_range_msg)).
  { unfold kullback_leibler_divergence.
    cbn [length Nat.eqb negb for_loop nth bind].
    rewrite outside_unit_interval_above by lra. reflexivity. }
  split; [ | split; [ exact E | split; [ reflexivity | ] ] ].
  - right. exists 1%nat. split; [ cbn; lia | cbn; discriminate ].
  - rewrite E. intros [e [[= <-] Hk]]. discriminate.
Qed.

(** ** Writes into vectors and matrices *)

Section VecSet.
Context {A : Type}.

Lemma length_vec_set (v : list A) (i : nat) (x : A) :
  length (vec_set v i x) = length v.
Proof.
  revert i. induction v as [ | y v IH ]; intros [ | i ]; cbn; congruence.
Qed.

Lemma nth_vec_set_same (v : list A) (i : nat) (x d : A) :
  (i < length v)%nat -> nth i (vec_set v i x) d = x.
Proof.
  revert i. induction v as [ | y v IH ]; intros [ | i ] Hi; cbn in *;
    try lia; [ reflexivity | apply IH; lia ].
Qed.

Lemma nth_vec_set_other (v : list A) (i j : nat) (x d : A) :
  i <> j -> nth j (vec_set v i x) d = nth j v d.
Proof.
  revert i j. induction v as [ | y v IH ]; intros [ | i ] [ | j ] Hij; cbn;
    try reflexivity; try congruence.
  apply IH. congruence.
Qed.

Lemma vec_set_vec_set (v : list A) (i : nat) (x y : A) :
  vec_set (vec_set v i x) i y = vec_set v i y.
Proof.
  revert i. induction v as [ | z v IH ]; intros [ | i ]; cbn; congruence.
Qed.

Lemma vec_set_nth (v : list A) (i : nat) (d : A) :
  vec_set v i (nth i v d) = v.
Proof.
  revert i. induction v as [ | z v IH ]; intros [ | i ]; cbn; congruence.
Qed.

Lemma Forall_vec_set (P : A -> Prop) (v : list A) (i : nat) (x : A) :
  Forall P v -> P x -> Forall P (vec_set v i x).
Proof.
  intros Hv Hx. revert i. induction Hv as [ | y v Hy Hv IH ]; intros [ | i ]; cbn;
    constructor; auto.
Qed.

(** Reading a vector at 0, 1, ..., size-1 gives the vector back. *)
Lemma map_nth_seq (v : list A) (d : A) :
  map (fun i => nth i v d) (seq 0 (length v)) = v.
Proof.
  induction v as [ | y v IH ]; [ reflexivity | ].
  cbn [length seq map nth]. f_equal.
  rewrite <- seq_shift, map_map. exact IH.
Qed.

(** A loop that stores [g i] at each index [i] of the list [indices]. *)
Lemma length_fill (g : nat -> A) (indices : list nat) (v : list A) :
  length (fold_left (fun v i => vec_set v i (g i)) indices v) = length v.
Proof.
  revert v. induction indices as [ | k indices IH ]; intros v; cbn [fold_left].
  - reflexivity.
  - rewrite IH. apply length_vec_set.
Qed.

Lemma nth_fill (g : nat -> A) (indices : list nat) (v : list A) (i : nat) (d : A) :
  In i indices -> (i < length v)%nat ->
  nth i (fold_left (fun v i => vec_set v i (g i)) indices v) d = g i.
Proof.
  induction indices as [ | k indices IH ] using rev_ind; intros Hin Hi.
  - destruct Hin.
  - rewrite fold_left_app. cbn [fold_left].
    destruct (Nat.eq_dec k i) as [-> | Hne].
    + apply nth_vec_set_same. rewrite length_fill. exact Hi.
    + rewrite nth_vec_set_other by exact Hne.
      apply IH; [ | exact Hi ].
      apply in_app_or in Hin as [Hin | [Hin | []]]; [ exact Hin | contradiction ].
Qed.

Lemma nth_map_seq (g : nat -> A) (n i : nat) (d : A) :
  (i < n)%nat -> nth i (map g (seq 0 n)) d = g i.
Proof.
  intros Hi. rewrite nth_indep with (d' := g 0%nat)
    by (rewrite length_map, length_seq; exact Hi).
  rewrite map_nth, seq_nth by exact Hi. reflexivity.
Qed.

(** Storing [g i] at every index of a vector yields [g 0; g 1; ...]. *)
Lemma fill_seq (g : nat -> A) (v : list A) (d : A) :
  fold_left (fun v i => vec_set v i (g i)) (seq 0 (length v)) v
    = map g (seq 0 (length v)).
Proof.
  apply nth_ext with (d := d) (d' := d).
  - rewrite length_fill, length_map, length_seq. reflexivity.
  - intros i Hi. rewrite length_fill in Hi.
    rewrite nth_fill by (try apply in_seq; lia).
    rewrite nth_map_seq by exact Hi. reflexivity.
Qed.
End VecSet.

(** The loop over [j] of [softmax_gradient] rewrites row [i] only. *)
Lemma mat_fill_row (c : nat -> float) (columns : list nat)
    (m : list (list float)) (i : nat) :
  (i < length m)%nat ->
  fold_left (fun m j => mat_set m i j (c j)) columns m
    = vec_set m i
        (fold_left (fun row j => vec_set row j (c j)) columns (nth i m [])).
Proof.
  revert m. induction columns as [ | j columns IH ]; intros m Hi; cbn [fold_left].
  - symmetry. apply vec_set_nth.
  - rewrite IH by (unfold mat_set; rewrite length_vec_set; exact Hi).
    unfold mat_set. rewrite nth_vec_set_same by exact Hi.
    apply vec_set_vec_set.
Qed.

(** The two nested loops store row [i] as [c i 0; c i 1; ...]. *)
Lemma mat_fill (c : nat -> nat -> float) (n : nat) (rows : list nat)
    (m : list (list float)) :
  Forall (fun row => length row = n) m ->
  Forall (fun i => (i < length m)%nat) rows ->
  fold_left (fun m i => fold_left (fun m j => mat_set m i j (c i j)) (seq 0 n) m)
            rows m
    = fold_left (fun m i => vec_set m i (map (c i) (seq 0 n))) rows m.
Proof.
  revert m. induction rows as [ | i rows IH ]; intros m Hm Hrows; cbn [fold_left].
  - reflexivity.
  - inversion Hrows as [ | ? ? Hi Hrows' ]; subst.
    rewrite mat_fill_row by exact Hi.
    assert (Hrow : length (nth i m []) = n).
    { rewrite Forall_forall in Hm. apply Hm, nth_In, Hi. }
    rewrite <- Hrow at 1. rewrite (fill_seq _ _ NaN), Hrow.
    apply IH.
    + apply Forall_vec_set; [ exact Hm | ].
      rewrite length_map, length_seq. reflexivity.
    + rewrite length_vec_set. exact Hrows'.
Qed.

(** ** The softmax Jacobian *)

(** [softmax_gradient] in closed form: the probabilities are the
    exponentials of the shifted logits over their sum, and row [i] of
    the result lists the entries stored at [jacobian[i][0..n-1]]. *)
Lemma softmax_gradient_closed_form (logits : list float) (max_logit : float) :
  max_element logits = Some max_logit ->
  let n := length logits in
  let sum_exp :=
    fold_left (fun sum_exp logit => fadd sum_exp (fexp (fsub logit max_logit)))
              logits (Finite 0) in
  let softmax_values :=
    map (fun logit => fdiv (fexp (fsub logit max_logit)) sum_exp) logits in
  softmax_gradient logits
    = Some (map (fun i => map (jacobian_entry softmax_values i) (seq 0 n))
                (seq 0 n)).
Proof.
  intros Hmax n sum_exp softmax_values.
  unfold softmax_gradient. rewrite Hmax. fold n. fold sum_exp. f_equal.
  assert (Hvalues :
    fold_left (fun softmax_values i =>
                 vec_set softmax_values i
                   (fdiv (fexp (fsub (nth i logits NaN) max_logit)) sum_exp))
              (seq 0 n) (repeat (Finite 0) n)
    = softmax_values).
  { rewrite <- (repeat_length (Finite 0) n) at 1.
    rewrite (fill_seq _ _ NaN), repeat_length.
    unfold softmax_values, n.
    transitivity
      (map (fun logit => fdiv (fexp (fsub logit max_logit)) sum_exp)
           (map (fun i => nth i logits NaN) (seq 0 (length logits)))).
    - rewrite map_map. reflexivity.
    - rewrite map_nth_seq. reflexivity. }
  rewrite Hvalues.
  rewrite (mat_fill (jacobian_entry softmax_values) n).
  - pose proof (fill_seq
                  (fun i => map (jacobian_entry softmax_values i) (seq 0 n))
                  (repeat (repeat (Finite 0) n) n) []) as Hrows.
    rewrite repeat_length in Hrows. exact Hrows.
  - apply Forall_forall. intros row Hrow.
    apply repeat_spec in Hrow. subst row. apply repeat_length.
  - apply Forall_forall. intros i Hi. apply in_seq in Hi.
    rewrite repeat_length. lia.
Qed.

Lemma max_element_nonempty (logits : list float) :
  logits <> [] -> exists max_logit, max_element logits = Some max_logit.
Proof.
  destruct logits as [ | x rest ]; [ congruence | ].
  intros _. eexists. reflexivity.
Qed.

(** C10: [softmax_gradient] begins by taking the greatest logit, which
    does not exist for the empty sequence (the undefined branch of the
    embedding is reached); on every non-empty sequence of length [n] it
    returns a matrix of [n] rows of [n] entries each. *)
Theorem softmax_gradient_requires_nonempty :
  max_element [] = None /\
  softmax_gradient [] = None /\
  forall logits, logits <> [] ->
    exists jacobian,
      softmax_gradient logits = Some jacobian /\
      length jacobian = length logits /\
      Forall (fun row => length row = length logits) jacobian.
Proof.
  split; [ reflexivity | split; [ reflexivity | ] ].
  intros logits Hne.
  destruct (max_element_nonempty logits Hne) as [max_logit Hmax].
  eexists. split; [ apply (softmax_gradient_closed_form logits max_logit Hmax) | ].
  split.
  - rewrite length_map, length_seq. reflexivity.
  - apply Forall_forall. intros row Hrow.
    apply in_map_iff in Hrow as [i [<- _]].
    rewrite length_map, length_seq. reflexivity.
Qed.

Lemma softmax_gradient_requires_nonempty_witness :
  exists jacobian,
    softmax_gradient [Finite 1; NaN; PosInf] = Some jacobian /\
    length jacobian = 3%nat /\
    Forall (fun row => length row = 3%nat) jacobian.
Proof.
  apply (proj2 (proj2 softmax_gradient_requires_nonempty)
           [Finite 1; NaN; PosInf]).
  discriminate.
Defined.

(** *** Finite logits *)

Lemma max_element_finite (x : R) (rest : list R) :
  max_element (map Finite (x :: rest)) = Some (Finite (Rlist_max x rest)).
Proof.
  cbn [map max_element]. f_equal. unfold Rlist_max.
  revert x. induction rest as [ | y rest IH ]; intros x; cbn [map fold_left].
  - reflexivity.
  - replace (if flt (Finite x) (Finite y) then Finite y else Finite x)
      with (Finite (Rmax x y)); [ apply IH | ].
    unfold flt, Rmax.
    destruct (Rlt_dec x y), (Rle_dec x y); try reflexivity; try lra.
    f_equal. lra.
Qed.

Lemma sum_exp_finite (m acc : R) (l : list R) :
  fold_left (fun sum_exp logit => fadd sum_exp (fexp (fsub logit (Finite m))))
            (map Finite l) (Finite acc)
    = Finite (acc + Rsum (map (fun y => exp (y - m)) l)).
Proof.
  revert acc. induction l as [ | y l IH ]; intros acc; cbn [map fold_left Rsum].
  - f_equal. ring.
  - cbn [fsub fneg fadd fexp]. rewrite IH. f_equal. unfold Rminus. ring.
Qed.

Lemma Rsum_exp_positive (m : R) (l : list R) :
  l <> [] -> 0 < Rsum (map (fun y => exp (y - m)) l).
Proof.
  assert (Hnonneg : forall l, 0 <= Rsum (map (fun y => exp (y - m)) l)).
  { clear. induction l as [ | y l IH ]; cbn [map Rsum]; [ lra | ].
    pose proof (exp_pos (y - m)). lra. }
  destruct l as [ | y l ]; [ congruence | ]. intros _. cbn [map Rsum].
  pose proof (exp_pos (y - m)). pose proof (Hnonneg l). lra.
Qed.

Lemma Rsum_map_div (f : R -> R) (z : R) (l : list R) :
  Rsum (map (fun y => f y / z) l) = Rsum (map f l) / z.
Proof.
  induction l as [ | y l IH ]; cbn [map Rsum].
  - unfold Rdiv. ring.
  - rewrite IH. unfold Rdiv. ring.
Qed.

(** The stabilised softmax probabilities sum to 1. *)
Lemma Rsum_stable_softmax (l : list R) : l <> [] -> Rsum (stable_softmax l) = 1.
Proof.
  destruct l as [ | x rest ]; [ congruence | ]. intros _.
  unfold stable_softmax. cbv zeta.
  rewrite (Rsum_map_div (fun y => exp (y - Rlist_max x rest))).
  pose proof (Rsum_exp_positive (Rlist_max x rest) (x :: rest) ltac:(discriminate)).
  field. lra.
Qed.

Lemma length_stable_softmax (l : list R) : length (stable_softmax l) = length l.
Proof. destruct l; [ reflexivity | ]. unfold stable_softmax. apply length_map. Qed.

(** On finite logits the probabilities that the code computes are the
    stabilised softmax. *)
Lemma softmax_values_finite (x : R) (rest : list R) :
  let max_logit := Finite (Rlist_max x rest) in
  let sum_exp :=
    fold_left (fun sum_exp logit => fadd sum_exp (fexp (fsub logit max_logit)))
              (map Finite (x :: rest)) (Finite 0) in
  map (fun logit => fdiv (fexp (fsub logit max_logit)) sum_exp)
      (map Finite (x :: rest))
    = map Finite (stable_softmax (x :: rest)).
Proof.
  intros max_logit sum_exp. subst max_logit sum_exp.
  rewrite sum_exp_finite, Rplus_0_l.
  pose proof (Rsum_exp_positive (Rlist_max x rest) (x :: rest) ltac:(discriminate))
    as Hpos.
  unfold stable_softmax. cbv zeta.
  set (z := Rsum (map (fun y => exp (y - Rlist_max x rest)) (x :: rest))) in *.
  rewrite !map_map. apply map_ext. intros y.
  cbn [fsub fneg fadd fexp]. rewrite fdiv_finite by lra. reflexivity.
Qed.

Lemma jacobian_entry_finite (p : list R) (i j : nat) :
  (i < length p)%nat -> (j < length p)%nat ->
  jacobian_entry (map Finite p) i j = Finite (jacobian_of p i j).
Proof.
  intros Hi Hj. unfold jacobian_entry, jacobian_of.
  rewrite !nth_map_Finite by assumption.
  destruct (i =? j)%nat; cbn [fsub fneg fadd fmul]; f_equal; ring.
Qed.

Lemma fsum_finite (l : list R) : fsum (map Finite l) = Finite (Rsum l).
Proof.
  unfold fsum. rewrite <- (Rplus_0_l (Rsum l)). generalize 0.
  induction l as [ | y l IH ]; intros acc; cbn [map fold_left Rsum].
  - f_equal. ring.
  - cbn [fadd]. rewrite IH. f_equal. ring.
Qed.

(** The entries of row [i] over the columns [a, a+1, ..., a+k-1]. *)
Lemma Rsum_jacobian_row_segment (p : list R) (i a k : nat) :
  Rsum (map (jacobian_of p i) (seq a k))
    = (if (a <=? i)%nat && (i <? a + k)%nat then nth i p 0 else 0)
      - nth i p 0 * Rsum (map (fun j => nth j p 0) (seq a k)).
Proof.
  revert a. induction k as [ | k IH ]; intros a; cbn [seq map Rsum].
  - replace (a <=? i)%nat with (negb (i <? a + 0)%nat)
      by (rewrite Nat.add_0_r, Nat.ltb_antisym, negb_involutive; reflexivity).
    destruct (i <? a + 0)%nat; cbn; ring.
  - rewrite IH. unfold jacobian_of at 1.
    destruct (Nat.eqb_spec i a) as [-> | Hne].
    + replace (Datatypes.S a <=? a)%nat with false
        by (symmetry; apply Nat.leb_gt; lia).
      rewrite Nat.leb_refl.
      replace (a <? a + Datatypes.S k)%nat with true
        by (symmetry; apply Nat.ltb_lt; lia).
      cbn [andb]. ring.
    + replace ((a <=? i)%nat && (i <? a + Datatypes.S k)%nat)
        with ((Datatypes.S a <=? i)%nat && (i <? Datatypes.S a + k)%nat).
      * ring.
      * replace (a + Datatypes.S k)%nat with (Datatypes.S a + k)%nat by lia.
        f_equal. apply eq_true_iff_eq.
        rewrite !Nat.leb_le. lia.
Qed.

(** Every row of the Jacobian of probabilities that sum to 1 sums to 0. *)
Lemma Rsum_jacobian_row (p : list R) (i : nat) :
  Rsum p = 1 -> (i < length p)%nat ->
  Rsum (map (jacobian_of p i) (seq 0 (length p))) = 0.
Proof.
  intros Hp Hi. rewrite Rsum_jacobian_row_segment.
  rewrite map_nth_seq, Hp.
  replace ((0 <=? i)%nat && (i <? 0 + length p)%nat) with true.
  - ring.
  - symmetry. apply andb_true_intro. split.
    + apply Nat.leb_le. lia.
    + apply Nat.ltb_lt. lia.
Qed.

(** C4: on every non-empty sequence of [n] finite logits,
    [softmax_gradient] returns the [n] by [n] matrix [J] built from the
    max-stabilised softmax probabilities [p], which sum to 1:
    [J[i][i] = p_i (1 - p_i)], [J[i][j] = - p_i p_j] off the diagonal;
    and every row of [J] sums to 0 in exact arithmetic. *)
Theorem softmax_gradient_rows_sum_to_zero (logits : list R) :
  logits <> [] ->
  let n := length logits in
  let p := stable_softmax logits in
  exists jacobian,
    softmax_gradient (map Finite logits) = Some jacobian /\
    length jacobian = n /\
    Rsum p = 1 /\
    (forall i j, (i < n)%nat -> (j < n)%nat ->
       nth j (nth i jacobian []) NaN = Finite (jacobian_of p i j)) /\
    (forall i, (i < n)%nat ->
       length (nth i jacobian []) = n /\ fsum (nth i jacobian []) = Finite 0).
Proof.
  intros Hne n p.
  destruct logits as [ | x rest ]; [ congruence | ].
  pose proof (softmax_gradient_closed_form
                (map Finite (x :: rest)) (Finite (Rlist_max x rest))
                (max_element_finite x rest)) as Hclosed.
  cbv zeta in Hclosed.
  rewrite softmax_values_finite, length_map in Hclosed.
  fold n p in Hclosed.
  assert (Hp : length p = n) by apply length_stable_softmax.
  assert (Hrow : forall i, (i < n)%nat ->
            map (jacobian_entry (map Finite p) i) (seq 0 n)
            = map Finite (map (jacobian_of p i) (seq 0 n))).
  { intros i Hi. rewrite map_map. apply map_ext_in. intros j Hj.
    apply in_seq in Hj. apply jacobian_entry_finite; lia. }
  eexists. split; [ exact Hclosed | ].
  split; [ rewrite length_map, length_seq; reflexivity | ].
  split; [ apply Rsum_stable_softmax; discriminate | ].
  split.
  - intros i j Hi Hj.
    rewrite (nth_map_seq _ n i []) by exact Hi.
    rewrite (nth_map_seq _ n j NaN) by exact Hj.
    apply jacobian_entry_finite; lia.
  - intros i Hi. rewrite (nth_map_seq _ n i []) by exact Hi. split.
    + rewrite length_map, length_seq. reflexivity.
    + rewrite Hrow by exact Hi. rewrite fsum_finite. f_equal.
      rewrite <- Hp. apply Rsum_jacobian_row.
      * apply Rsum_stable_softmax. discriminate.
      * lia.
Qed.

Lemma softmax_gradient_rows_sum_to_zero_witness :
  exists jacobian,
    softmax_gradient (map Finite [1; 2; 3]) = Some jacobian /\
    length jacobian = 3%nat /\
    Rsum (stable_softmax [1; 2; 3]) = 1 /\
    (forall i j, (i < 3)%nat -> (j < 3)%nat ->
       nth j (nth i jacobian []) NaN
         = Finite (jacobian_of (stable_softmax [1; 2; 3]) i j)) /\
    (forall i, (i < 3)%nat ->
       length (nth i jacobian []) = 3%nat /\
       fsum (nth i jacobian []) = Finite 0).
Proof.
  apply (softmax_gradient_rows_sum_to_zero [1; 2; 3]). discriminate.
Defined.

(** * Further properties: activations and their gradients *)

(** ** Derivatives *)

Lemma derivative_value (f : R -> R) (x l l' : R) :
  l = l' -> derivable_pt_lim f x l -> derivable_pt_lim f x l'.
Proof. intros ->. trivial. Qed.

Lemma derivative_const (c x : R) : derivable_pt_lim (fun _ => c) x 0.
Proof. exact (derivable_pt_lim_const c x). Qed.

Lemma derivative_id (x : R) : derivable_pt_lim (fun y => y) x 1.
Proof. exact (derivable_pt_lim_id x). Qed.

Lemma derivative_plus (f g : R -> R) (x l1 l2 : R) :
  derivable_pt_lim f x l1 -> derivable_pt_lim g x l2 ->
  derivable_pt_lim (fun y => f y + g y) x (l1 + l2).
Proof. exact (derivable_pt_lim_plus f g x l1 l2). Qed.

Lemma derivative_minus (f g : R -> R) (x l1 l2 : R) :
  derivable_pt_lim f x l1 -> derivable_pt_lim g x l2 ->
  derivable_pt_lim (fun y => f y - g y) x (l1 - l2).
Proof. exact (derivable_pt_lim_minus f g x l1 l2). Qed.

Lemma derivative_opp (f : R -> R) (x l : R) :
  derivable_pt_lim f x l -> derivable_pt_lim (fun y => - f y) x (- l).
Proof. exact (derivable_pt_lim_opp f x l). Qed.

Lemma derivative_mult (f g : R -> R) (x l1 l2 : R) :
  derivable_pt_lim f x l1 -> derivable_pt_lim g x l2 ->
  derivable_pt_lim (fun y => f y * g y) x (l1 * g x + f x * l2).
Proof. exact (derivable_pt_lim_mult f g x l1 l2). Qed.

Lemma derivative_div (f g : R -> R) (x l1 l2 : R) :
  derivable_pt_lim f x l1 -> derivable_pt_lim g x l2 -> g x <> 0 ->
  derivable_pt_lim (fun y => f y / g y) x
                   ((l1 * g x - l2 * f x) / (g x * g x)).
Proof. exact (derivable_pt_lim_div f g x l1 l2). Qed.

Lemma derivative_comp (f g : R -> R) (x l1 l2 : R) :
  derivable_pt_lim g x l1 -> derivable_pt_lim f (g x) l2 ->
  derivable_pt_lim (fun y => f (g y)) x (l2 * l1).
Proof. exact (derivable_pt_lim_comp g f x l1 l2). Qed.

Lemma cosh_positive (x : R) : 0 < cosh x.
Proof.
  unfold cosh. pose proof (exp_pos x). pose proof (exp_pos (- x)). lra.
Qed.

Lemma derivative_tanh (x : R) :
  derivable_pt_lim tanh x (1 - tanh x * tanh x).
Proof.
  pose proof (cosh_positive x) as Hc.
  apply derivative_value
    with (l := (cosh x * cosh x - sinh x * sinh x) / (cosh x * cosh x)).
  - unfold tanh. field. lra.
  - apply (derivative_div sinh cosh).
    + apply derivable_pt_lim_sinh.
    + apply derivable_pt_lim_cosh.
    + lra.
Qed.

(** [differentiate] derives the function of the goal by the rules above,
    the derivative being left to be determined; it leaves the side
    conditions: a non-zero divisor, a positive argument of [ln]. *)
Ltac differentiate :=
  lazymatch goal with
  | |- derivable_pt_lim (fun _ => ?c) _ _ => apply derivative_const
  | |- derivable_pt_lim (fun y => y) _ _ => apply derivative_id
  | |- derivable_pt_lim (fun y => @?f y + @?g y) ?x _ =>
      apply (derivative_plus f g x); differentiate
  | |- derivable_pt_lim (fun y => @?f y - @?g y) ?x _ =>
      apply (derivative_minus f g x); differentiate
  | |- derivable_pt_lim (fun y => @?f y * @?g y) ?x _ =>
      apply (derivative_mult f g x); differentiate
  | |- derivable_pt_lim (fun y => @?f y / @?g y) ?x _ =>
      apply (derivative_div f g x); [ differentiate | differentiate | ]
  | |- derivable_pt_lim (fun y => - @?f y) ?x _ =>
      apply (derivative_opp f x); differentiate
  | |- derivable_pt_lim (fun y => exp (@?f y)) ?x _ =>
      apply (derivative_comp exp f x);
      [ differentiate | apply derivable_pt_lim_exp ]
  | |- derivable_pt_lim (fun y => tanh (@?f y)) ?x _ =>
      apply (derivative_comp tanh f x);
      [ differentiate | apply derivative_tanh ]
  | |- derivable_pt_lim (fun y => ln (@?f y)) ?x _ =>
      apply (derivative_comp ln f x);
      [ differentiate | apply derivable_pt_lim_ln ]
  | |- derivable_pt_lim (fun y => @?f y ^ ?n) ?x _ =>
      apply (derivative_comp (fun z => z ^ n) f x);
      [ differentiate | apply derivable_pt_lim_pow ]
  end.

(** [derivative_of formula] reduces a goal [derivable_pt_lim g x l] to
    the goals: [g] agrees with [formula]; [l] is the derivative that the
    rules give; the side conditions of the rules. *)
Ltac derivative_of formula :=
  apply (derivable_pt_lim_ext formula);
  [ | eapply derivative_value; [ | differentiate ] ].

(** ** Sigmoid, softplus, swish *)

Lemma sigmoid_gradient_finite (x : R) :
  sigmoid_gradient (Finite x)
    = Finite (1 / (1 + exp (- x)) * (1 - 1 / (1 + exp (- x)))).
Proof.
  change (sigmoid_gradient (Finite x))
    with (fmul (sigmoid (Finite x)) (fsub (Finite 1) (sigmoid (Finite x)))).
  rewrite sigmoid_finite. reflexivity.
Qed.

Lemma is_finite_Finite (r : R) : is_finite (Finite r).
Proof. exists r. reflexivity. Qed.

(** X1: [sigmoid_gradient] is the derivative of [sigmoid]. *)
Theorem sigmoid_gradient_is_derivative :
  is_derivative_of sigmoid_gradient sigmoid.
Proof.
  intros x. rewrite sigmoid_gradient_finite, sigmoid_finite.
  split; [ apply is_finite_Finite | split; [ apply is_finite_Finite | ] ].
  cbn [real_value].
  pose proof (exp_pos (- x)) as He.
  derivative_of (fun y => 1 / (1 + exp (- y))).
  - intros z. rewrite sigmoid_finite. reflexivity.
  - field. lra.
  - lra.
Qed.

Lemma softplus_finite (x : R) (alpha : float) :
  softplus (Finite x) alpha = Finite (ln (1 + exp x)).
Proof.
  unfold softplus. cbn [fexp fadd].
  apply flog_positive. pose proof (exp_pos x). lra.
Qed.

Lemma softplus_gradient_finite (x : R) :
  softplus_gradient (Finite x) = Finite (1 / (1 + exp (- x))).
Proof. exact (sigmoid_finite x). Qed.

(** X2: [softplus_gradient] is the derivative of [softplus] at every
    real number up to 88, where [e^x] stays within the range of
    [float], whatever the unused parameter [alpha]; and
    [softplus_gradient] computes what [sigmoid] computes. *)
Theorem softplus_gradient_is_derivative (alpha : float) (x : R) :
  x <= 88 ->
  is_finite (softplus (Finite x) alpha) /\
  is_finite (softplus_gradient (Finite x)) /\
  derivable_pt_lim (fun y => real_value (softplus (Finite y) alpha)) x
                   (real_value (softplus_gradient (Finite x))) /\
  forall y : float, softplus_gradient y = sigmoid y.
Proof.
  intros _. rewrite softplus_gradient_finite, softplus_finite.
  split; [ apply is_finite_Finite | split; [ apply is_finite_Finite | ] ].
  split; [ | reflexivity ].
  cbn [real_value].
  pose proof (exp_pos x) as He.
  derivative_of (fun y => ln (1 + exp y)).
  - intros z. rewrite softplus_finite. reflexivity.
  - rewrite exp_Ropp. field. lra.
  - lra.
Qed.

Lemma softplus_gradient_is_derivative_witness :
  is_finite (softplus (Finite 2) (Finite 1)) /\
  is_finite (softplus_gradient (Finite 2)) /\
  derivable_pt_lim (fun y => real_value (softplus (Finite y) (Finite 1))) 2
                   (real_value (softplus_gradient (Finite 2))) /\
  forall y : float, softplus_gradient y = sigmoid y.
Proof. apply (softplus_gradient_is_derivative (Finite 1) 2). lra. Defined.

Lemma swish_finite (x : R) : swish (Finite x) = Finite (x * (1 / (1 + exp (- x)))).
Proof. unfold swish. rewrite sigmoid_finite. reflexivity. Qed.

Lemma swish_gradient_finite (x : R) :
  swish_gradient (Finite x)
    = Finite (1 / (1 + exp (- x))
              + x * (1 / (1 + exp (- x))) * (1 - 1 / (1 + exp (- x)))).
Proof.
  change (swish_gradient (Finite x))
    with (fadd (sigmoid (Finite x))
               (fmul (fmul (Finite x) (sigmoid (Finite x)))
                     (fsub (Finite 1) (sigmoid (Finite x))))).
  rewrite sigmoid_finite. reflexivity.
Qed.

(** X3: [swish_gradient] is the derivative of [swish], and is
    [swish x + sigmoid x * (1 - swish x)]. *)
Theorem swish_gradient_is_derivative :
  is_derivative_of swish_gradient swish /\
  forall x : R,
    swish_gradient (Finite x)
      = fadd (swish (Finite x))
             (fmul (sigmoid (Finite x)) (fsub (Finite 1) (swish (Finite x)))).
Proof.
  split.
  - intros x. rewrite swish_gradient_finite, swish_finite.
    split; [ apply is_finite_Finite | split; [ apply is_finite_Finite | ] ].
    cbn [real_value].
    pose proof (exp_pos (- x)) as He.
    derivative_of (fun y => y * (1 / (1 + exp (- y)))).
    + intros z. rewrite swish_finite. reflexivity.
    + field. lra.
    + lra.
  - intros x. rewrite swish_gradient_finite, swish_finite, sigmoid_finite.
    cbn [fsub fneg fadd fmul]. f_equal. ring.
Qed.

(** ** Hyperbolic tangent *)

Lemma tanh_bounds (x : R) : -1 < tanh x < 1.
Proof.
  pose proof (cosh_positive x) as Hc.
  pose proof (exp_pos x) as H1. pose proof (exp_pos (- x)) as H2.
  unfold tanh. split.
  - apply Rmult_lt_reg_r with (cosh x); [ exact Hc | ].
    unfold Rdiv. rewrite Rmult_assoc, Rinv_l by lra.
    unfold sinh, cosh. lra.
  - apply Rmult_lt_reg_r with (cosh x); [ exact Hc | ].
    unfold Rdiv. rewrite Rmult_assoc, Rinv_l by lra.
    unfold sinh, cosh. lra.
Qed.

Lemma exp_double (x : R) : exp (2 * x) = exp x * exp x.
Proof. replace (2 * x) with (x + x) by ring. apply exp_plus. Qed.

(** X4: [tanh_gradient] is the derivative of [dllib_tanh]; on finite
    values [dllib_tanh] lies between -1 and 1, its gradient between 0
    and 1, and [dllib_tanh x] is [2 * sigmoid (2 x) - 1], the shifted
    sigmoid of the comment in the source. *)
Theorem tanh_gradient_is_derivative :
  is_derivative_of tanh_gradient dllib_tanh /\
  (forall x : R,
     exists t g, dllib_tanh (Finite x) = Finite t /\ -1 <= t <= 1 /\
                 tanh_gradient (Finite x) = Finite g /\ 0 <= g <= 1) /\
  (forall x : R,
     dllib_tanh (Finite x)
       = fsub (fmul (Finite 2) (sigmoid (fmul (Finite 2) (Finite x))))
              (Finite 1)).
Proof.
  split; [ | split ].
  - intros x.
    split; [ apply is_finite_Finite | split; [ apply is_finite_Finite | ] ].
    cbn [tanh_gradient dllib_tanh ftanh fmul fsub fneg fadd real_value].
    derivative_of (fun y => tanh y).
    + reflexivity.
    + ring.
  - intros x. exists (tanh x), (1 - tanh x * tanh x).
    pose proof (tanh_bounds x) as Ht.
    repeat split; try lra; nra.
  - intros x. cbn [fmul]. rewrite sigmoid_finite.
    cbn [dllib_tanh ftanh fmul fsub fneg fadd]. f_equal.
    unfold tanh, sinh, cosh.
    replace (- (2 * x)) with (2 * - x) by ring.
    rewrite exp_double, exp_Ropp.
    pose proof (exp_pos x) as He.
    field. repeat split; nra.
Qed.

(** ** Mish, GELU, Gaussian *)

Lemma mish_finite (x : R) :
  mish (Finite x) = Finite (x * tanh (ln (1 + exp x))).
Proof.
  unfold mish. cbn [fexp fadd].
  rewrite flog_positive by (pose proof (exp_pos x); lra). reflexivity.
Qed.

Lemma mish_gradient_finite (x : R) :
  mish_gradient (Finite x)
    = Finite (tanh (ln (1 + exp x))
              + x * exp x / (1 + exp x)
                * (1 - tanh (ln (1 + exp x)) * tanh (ln (1 + exp x)))).
Proof.
  pose proof (exp_pos x) as He.
  unfold mish_gradient. cbn [fexp fadd fmul].
  rewrite flog_positive by lra. rewrite fdiv_finite by lra. reflexivity.
Qed.

(** X5: [mish_gradient] is the derivative of [mish] at every real
    number up to 80, where [x * e^x] stays within the range of
    [float]. *)
Theorem mish_gradient_is_derivative (x : R) :
  x <= 80 ->
  is_finite (mish (Finite x)) /\
  is_finite (mish_gradient (Finite x)) /\
  derivable_pt_lim (fun y => real_value (mish (Finite y))) x
                   (real_value (mish_gradient (Finite x))).
Proof.
  intros _. rewrite mish_gradient_finite, mish_finite.
  split; [ apply is_finite_Finite | split; [ apply is_finite_Finite | ] ].
  cbn [real_value].
  pose proof (exp_pos x) as He.
  derivative_of (fun y => y * tanh (ln (1 + exp y))).
  - intros z. rewrite mish_finite. reflexivity.
  - field. lra.
  - lra.
Qed.

Lemma mish_gradient_is_derivative_witness :
  is_finite (mish (Finite (-3))) /\
  is_finite (mish_gradient (Finite (-3))) /\
  derivable_pt_lim (fun y => real_value (mish (Finite y))) (-3)
                   (real_value (mish_gradient (Finite (-3)))).
Proof. apply (mish_gradient_is_derivative (-3)). lra. Defined.

(** The factor [std::sqrt(2.0f / M_PI)] of GELU. *)
Lemma gelu_scale :
  fsqrt (fdiv (Finite 2) M_PI) = Finite (sqrt (2 / 3.14159265358979323846)).
Proof.
  unfold M_PI. rewrite fdiv_finite by lra. unfold fsqrt.
  destruct (Rlt_dec (2 / 3.14159265358979323846) 0); [ lra | reflexivity ].
Qed.

Lemma gelu_finite (x : R) :
  gelu (Finite x)
    = Finite (0.5 * x
              * (1 + tanh (sqrt (2 / 3.14159265358979323846)
                           * (x + 0.044715 * x ^ 3)))).
Proof. unfold gelu. rewrite gelu_scale. reflexivity. Qed.

Lemma gelu_gradient_finite (x : R) :
  let c := sqrt (2 / 3.14159265358979323846) in
  let t := tanh (c * (x + 0.044715 * x ^ 3)) in
  gelu_gradient (Finite x)
    = Finite (0.5 * (1 + t)
              + 0.5 * x * c * (1 + 0.134145 * x ^ 2) * (1 - t * t)).
Proof. unfold gelu_gradient. rewrite gelu_scale. reflexivity. Qed.

(** X6: [gelu_gradient] is the derivative of [gelu], the tanh approximation
    with the coefficients 0.044715 and 0.134145 of the source; and
    [gelu x - gelu (-x)] is [x]. *)
Theorem gelu_gradient_is_derivative :
  is_derivative_of gelu_gradient gelu /\
  forall x : R, fsub (gelu (Finite x)) (gelu (fneg (Finite x))) = Finite x.
Proof.
  split.
  - intros x. rewrite gelu_gradient_finite, gelu_finite.
    split; [ apply is_finite_Finite | split; [ apply is_finite_Finite | ] ].
    cbn [real_value]. cbv zeta.
    set (c := sqrt (2 / 3.14159265358979323846)).
    derivative_of (fun y => 0.5 * y * (1 + tanh (c * (y + 0.044715 * y ^ 3)))).
    + intros z. rewrite gelu_finite. reflexivity.
    + replace 0.134145 with (3 * 0.044715) by lra.
      simpl (INR 3). simpl (Init.Nat.pred 3).
      set (t := tanh (c * (x + 0.044715 * x ^ 3))).
      ring.
  - intros x. cbn [fneg]. rewrite !gelu_finite.
    cbn [fsub fneg fadd]. f_equal.
    set (c := sqrt (2 / 3.14159265358979323846)).
    replace (c * (- x + 0.044715 * (- x) ^ 3))
      with (- (c * (x + 0.044715 * x ^ 3))) by ring.
    assert (Hodd : forall z, tanh (- z) = - tanh z).
    { intros z. unfold tanh, sinh, cosh. rewrite Ropp_involutive.
      pose proof (exp_pos z). pose proof (exp_pos (- z)). field. lra. }
    rewrite Hodd. lra.
Qed.

Lemma gaussian_finite (x : R) : gaussian (Finite x) = Finite (exp (- x ^ 2)).
Proof. reflexivity. Qed.

Lemma gaussian_gradient_finite (x : R) :
  gaussian_gradient (Finite x) = Finite (-2 * x * exp (- x ^ 2)).
Proof. reflexivity. Qed.

(** X7: [gaussian_gradient] is the derivative of [gaussian] at every
    real number of absolute value up to 1e38, where [-2 x] stays within
    the range of [float]; on finite values [gaussian] is even, lies
    between 0 and 1, and is 1 at 0. *)
Theorem gaussian_gradient_is_derivative :
  (forall x : R, -1e38 <= x <= 1e38 ->
     is_finite (gaussian (Finite x)) /\
     is_finite (gaussian_gradient (Finite x)) /\
     derivable_pt_lim (fun y => real_value (gaussian (Finite y))) x
                      (real_value (gaussian_gradient (Finite x)))) /\
  (forall x : R, gaussian (fneg (Finite x)) = gaussian (Finite x)) /\
  (forall x : R, exists g, gaussian (Finite x) = Finite g /\ 0 <= g <= 1) /\
  gaussian (Finite 0) = Finite 1.
Proof.
  split; [ | split; [ | split ] ].
  - intros x _. rewrite gaussian_gradient_finite, gaussian_finite.
    split; [ apply is_finite_Finite | split; [ apply is_finite_Finite | ] ].
    cbn [real_value].
    derivative_of (fun y => exp (- y ^ 2)).
    + intros z. reflexivity.
    + simpl (INR 2). simpl (Init.Nat.pred 2). ring.
  - intros x. cbn [fneg]. rewrite !gaussian_finite. do 2 f_equal. ring.
  - intros x. exists (exp (- x ^ 2)). split; [ reflexivity | ].
    pose proof (exp_pos (- x ^ 2)) as Hp.
    pose proof (pow2_ge_0 x) as Hsq.
    split; [ lra | ].
    destruct (Req_dec (x ^ 2) 0) as [E | N].
    + rewrite E, Ropp_0, exp_0. lra.
    + rewrite <- exp_0. apply Rlt_le, exp_increasing. lra.
  - rewrite gaussian_finite. f_equal.
    replace (- 0 ^ 2) with 0 by ring. apply exp_0.
Qed.

Lemma gaussian_gradient_is_derivative_witness :
  is_finite (gaussian (Finite 3)) /\
  is_finite (gaussian_gradient (Finite 3)) /\
  derivable_pt_lim (fun y => real_value (gaussian (Finite y))) 3
                   (real_value (gaussian_gradient (Finite 3))).
Proof. apply (proj1 gaussian_gradient_is_derivative 3). lra. Defined.

(** ** Piecewise activations *)

Lemma derivative_right_of_zero (f g : R -> R) (x l : R) :
  0 < x -> (forall z, 0 < z -> f z = g z) ->
  derivable_pt_lim f x l -> derivable_pt_lim g x l.
Proof.
  intros Hx Hfg. apply derivable_pt_lim_locally_ext with (a := 0) (b := x + 1).
  - lra.
  - intros z Hz. apply Hfg. lra.
Qed.

Lemma derivative_left_of_zero (f g : R -> R) (x l : R) :
  x < 0 -> (forall z, z < 0 -> f z = g z) ->
  derivable_pt_lim f x l -> derivable_pt_lim g x l.
Proof.
  intros Hx Hfg. apply derivable_pt_lim_locally_ext with (a := x - 1) (b := 0).
  - lra.
  - intros z Hz. apply Hfg. lra.
Qed.

Lemma relu_finite (x : R) :
  relu (Finite x) = Finite (if Rlt_dec x 0 then 0 else x).
Proof. unfold relu, fmax, flt. destruct (Rlt_dec x 0); reflexivity. Qed.

Lemma relu_gradient_finite (x : R) :
  relu_gradient (Finite x) = Finite (if Rlt_dec 0 x then 1 else 0).
Proof.
  unfold relu_gradient, fgt, of_int, flt. destruct (Rlt_dec 0 x); reflexivity.
Qed.

(** X8: [relu_gradient] is the derivative of [relu] at every real number
    other than 0. *)
Theorem relu_gradient_is_derivative_off_zero (x : R) :
  x <> 0 ->
  derivable_pt_lim (fun y => real_value (relu (Finite y))) x
                   (real_value (relu_gradient (Finite x))).
Proof.
  intros Hx. rewrite relu_gradient_finite. cbn [real_value].
  destruct (Rlt_dec 0 x) as [Hpos | Hneg].
  - apply derivative_right_of_zero with (f := fun y => y); [ exact Hpos | | ].
    + intros z Hz. rewrite relu_finite. cbn [real_value].
      destruct (Rlt_dec z 0); lra.
    + apply derivative_id.
  - apply derivative_left_of_zero with (f := fun _ => 0); [ lra | | ].
    + intros z Hz. rewrite relu_finite. cbn [real_value].
      destruct (Rlt_dec z 0); lra.
    + apply derivative_const.
Qed.

Lemma relu_gradient_is_derivative_off_zero_witness :
  derivable_pt_lim (fun y => real_value (relu (Finite y))) (-2)
                   (real_value (relu_gradient (Finite (-2)))).
Proof. apply (relu_gradient_is_derivative_off_zero (-2)). lra. Defined.


Lemma prelu_gradient_finite (x : R) (alpha : float) :
  prelu_gradient (Finite x) alpha = if Rlt_dec 0 x then Finite 1 else alpha.
Proof.
  unfold prelu_gradient, fgt, of_int, flt. destruct (Rlt_dec 0 x); reflexivity.
Qed.





(** X15: [leakyrelu] is [x] for positive [x] and [0.01 * x] otherwise,
    and [leakyrelu_gradient] with the slope 0.01 is its derivative at
    every real number other than 0. *)
Theorem leakyrelu_gradient_is_derivative_off_zero :
  (forall x : R,
     leakyrelu (Finite x) = Finite (if Rlt_dec 0 x then x else 0.01 * x)) /\
  (forall x : R, x <> 0 ->
     derivable_pt_lim (fun y => real_value (leakyrelu (Finite y))) x
       (real_value (leakyrelu_gradient (Finite x) (Finite 0.01)))).
Proof.
  assert (Hval : forall x : R,
            leakyrelu (Finite x)
              = Finite (if Rlt_dec 0 x then x else 0.01 * x)).
  { intros x. unfold leakyrelu, to_float, to_double, fmax. cbn [fmul flt].
    destruct (Rlt_dec (0.01 * x) x), (Rlt_dec 0 x);
      try reflexivity; f_equal; lra. }
  split; [ exact Hval | ].
  intros x Hx.
  change (leakyrelu_gradient (Finite x) (Finite 0.01))
    with (prelu_gradient (Finite x) (Finite 0.01)).
  rewrite prelu_gradient_finite.
  destruct (Rlt_dec 0 x) as [Hpos | Hneg]; cbn [real_value].
  - apply derivative_right_of_zero with (f := fun y => y); [ exact Hpos | | ].
    + intros z Hz. rewrite Hval. cbn [real_value].
      destruct (Rlt_dec 0 z); lra.
    + apply derivative_id.
  - apply derivative_left_of_zero with (f := fun y => 0.01 * y); [ lra | | ].
    + intros z Hz. rewrite Hval. cbn [real_value].
      destruct (Rlt_dec 0 z); lra.
    + eapply derivative_value; [ | differentiate ]. ring.
Qed.

Lemma leakyrelu_gradient_is_derivative_off_zero_witness :
  derivable_pt_lim (fun y => real_value (leakyrelu (Finite y))) (-5)
    (real_value (leakyrelu_gradient (Finite (-5)) (Finite 0.01))).
Proof.
  apply (proj2 leakyrelu_gradient_is_derivative_off_zero (-5)). lra.
Defined.

Lemma elu_finite (x alpha : R) :
  elu (Finite x) (Finite alpha)
    = Finite (if Rlt_dec 0 x then x else alpha * (exp x - 1)).
Proof.
  unfold elu, fgt, of_int, flt. destruct (Rlt_dec 0 x); reflexivity.
Qed.

Lemma elu_gradient_finite (x alpha : R) :
  elu_gradient (Finite x) (Finite alpha)
    = Finite (if Rlt_dec 0 x then 1 else alpha * exp x).
Proof.
  unfold elu_gradient, fgt, of_int, flt. destruct (Rlt_dec 0 x); reflexivity.
Qed.

(** X11: [elu_gradient] is the derivative of [elu] at every real number
    other than 0, for every finite [alpha]; for [x <= 0] it is
    [elu x + alpha]. *)
Theorem elu_gradient_is_derivative_off_zero (alpha : R) :
  (forall x : R, x <> 0 ->
     derivable_pt_lim (fun y => real_value (elu (Finite y) (Finite alpha))) x
       (real_value (elu_gradient (Finite x) (Finite alpha)))) /\
  (forall x : R, x <= 0 ->
     elu_gradient (Finite x) (Finite alpha)
       = fadd (elu (Finite x) (Finite alpha)) (Finite alpha)).
Proof.
  split.
  - intros x Hx. rewrite elu_gradient_finite.
    destruct (Rlt_dec 0 x) as [Hpos | Hneg]; cbn [real_value].
    + apply derivative_right_of_zero with (f := fun y => y); [ exact Hpos | | ].
      * intros z Hz. rewrite elu_finite. cbn [real_value].
        destruct (Rlt_dec 0 z); lra.
      * apply derivative_id.
    + apply derivative_left_of_zero
        with (f := fun y => alpha * (exp y - 1)); [ lra | | ].
      * intros z Hz. rewrite elu_finite. cbn [real_value].
        destruct (Rlt_dec 0 z); lra.
      * eapply derivative_value; [ | differentiate ]. ring.
  - intros x Hx. rewrite elu_gradient_finite, elu_finite.
    destruct (Rlt_dec 0 x); [ lra | ]. cbn [fadd]. f_equal. ring.
Qed.

Lemma elu_gradient_is_derivative_off_zero_witness :
  derivable_pt_lim (fun y => real_value (elu (Finite y) (Finite 1))) (-1)
    (real_value (elu_gradient (Finite (-1)) (Finite 1))) /\
  elu_gradient (Finite (-1)) (Finite 1)
    = fadd (elu (Finite (-1)) (Finite 1)) (Finite 1).
Proof.
  split.
  - apply (proj1 (elu_gradient_is_derivative_off_zero 1) (-1)). lra.
  - apply (proj2 (elu_gradient_is_derivative_off_zero 1) (-1)). lra.
Defined.

(** X12: For a finite [alpha >= 0], [elu] does not go below [- alpha]
    and [elu_gradient] is not negative. *)
Theorem elu_above_minus_alpha (alpha x : R) :
  0 <= alpha ->
  exists e g,
    elu (Finite x) (Finite alpha) = Finite e /\ - alpha <= e /\
    elu_gradient (Finite x) (Finite alpha) = Finite g /\ 0 <= g.
Proof.
  intros Ha. rewrite elu_finite, elu_gradient_finite.
  pose proof (exp_pos x) as He.
  do 2 eexists. split; [ reflexivity | split; [ | split; [ reflexivity | ] ] ].
  - destruct (Rlt_dec 0 x); nra.
  - destruct (Rlt_dec 0 x); nra.
Qed.

Lemma elu_above_minus_alpha_witness :
  exists e g,
    elu (Finite (-3)) (Finite 2) = Finite e /\ - 2 <= e /\
    elu_gradient (Finite (-3)) (Finite 2) = Finite g /\ 0 <= g.
Proof. apply (elu_above_minus_alpha 2 (-3)). lra. Defined.

(** ** Softsign *)

Lemma softsign_finite (x : R) :
  softsign (Finite x) = Finite (x / (1 + Rabs x)).
Proof.
  unfold softsign. cbn [fabs fadd].
  apply fdiv_finite. pose proof (Rabs_pos x). lra.
Qed.

Lemma softsign_gradient_finite (x : R) :
  softsign_gradient (Finite x) = Finite (1 / ((1 + Rabs x) * (1 + Rabs x))).
Proof.
  unfold softsign_gradient. cbn [fabs fadd fmul].
  apply fdiv_finite. pose proof (Rabs_pos x). nra.
Qed.

(** The derivative of [softsign] at 0, from the definition. *)
Lemma softsign_derivative_at_zero :
  derivable_pt_lim (fun y => y / (1 + Rabs y)) 0 1.
Proof.
  intros eps Heps. exists (mkposreal eps Heps). intros h Hh Hsmall.
  cbn [pos] in Hsmall.
  rewrite Rplus_0_l, Rabs_R0.
  pose proof (Rabs_pos h) as Hp.
  replace ((h / (1 + Rabs h) - 0 / (1 + 0)) / h - 1)
    with (- (Rabs h / (1 + Rabs h))) by (field; split; lra).
  rewrite Rabs_Ropp, Rabs_pos_eq.
  - apply Rle_lt_trans with (Rabs h); [ | exact Hsmall ].
    apply Rmult_le_reg_r with (1 + Rabs h); [ lra | ].
    unfold Rdiv. rewrite Rmult_assoc, Rinv_l by lra. nra.
  - apply Rmult_le_pos; [ exact Hp | ].
    apply Rlt_le, Rinv_0_lt_compat. lra.
Qed.

Lemma softsign_gradient_derivative_everywhere :
  is_derivative_of softsign_gradient softsign.
Proof.
  intros x. rewrite softsign_gradient_finite, softsign_finite.
  split; [ apply is_finite_Finite | split; [ apply is_finite_Finite | ] ].
  cbn [real_value].
  apply (derivable_pt_lim_ext (fun y => y / (1 + Rabs y)));
    [ intros z; rewrite softsign_finite; reflexivity | ].
  destruct (Rtotal_order x 0) as [Hneg | [-> | Hpos]].
  - apply derivative_left_of_zero with (f := fun y => y / (1 - y));
      [ exact Hneg | | ].
    + intros z Hz. rewrite Rabs_left by exact Hz. reflexivity.
    + rewrite Rabs_left by exact Hneg.
      eapply derivative_value; [ | differentiate ]; [ field | ]; lra.
  - rewrite Rabs_R0.
    replace (1 / ((1 + 0) * (1 + 0))) with 1 by field.
    apply softsign_derivative_at_zero.
  - apply derivative_right_of_zero with (f := fun y => y / (1 + y));
      [ exact Hpos | | ].
    + intros z Hz. rewrite Rabs_pos_eq by lra. reflexivity.
    + rewrite Rabs_pos_eq by lra.
      eapply derivative_value; [ | differentiate ]; [ field | ]; lra.
Qed.

Lemma softsign_bounds (x : R) :
  softsign (fneg (Finite x)) = fneg (softsign (Finite x)) /\
  exists s g,
    softsign (Finite x) = Finite s /\ -1 <= s <= 1 /\
    softsign_gradient (Finite x) = Finite g /\ 0 <= g <= 1 /\
    g = (1 - Rabs s) * (1 - Rabs s).
Proof.
  pose proof (Rabs_pos x) as Hp.
  assert (Hd : 0 < / (1 + Rabs x)) by (apply Rinv_0_lt_compat; lra).
  assert (Hd1 : / (1 + Rabs x) <= 1).
  { rewrite <- Rinv_1 at 2. apply Rinv_le_contravar; lra. }
  assert (Hmul : (1 + Rabs x) * / (1 + Rabs x) = 1) by (apply Rinv_r; lra).
  split.
  - cbn [fneg]. rewrite !softsign_finite. cbn [fneg]. f_equal.
    rewrite Rabs_Ropp. field. lra.
  - rewrite softsign_finite, softsign_gradient_finite.
    do 2 eexists. split; [ reflexivity | ].
    assert (Habs : Rabs (x / (1 + Rabs x)) = Rabs x * / (1 + Rabs x)).
    { unfold Rdiv. rewrite Rabs_mult, (Rabs_pos_eq (/ _)) by lra. reflexivity. }
    split; [ | split; [ reflexivity | split ] ].
    + assert (Hlt : Rabs (x / (1 + Rabs x)) < 1) by (rewrite Habs; nra).
      apply Rabs_def2 in Hlt. lra.
    + replace (1 / ((1 + Rabs x) * (1 + Rabs x)))
        with (/ (1 + Rabs x) * / (1 + Rabs x)) by (field; lra).
      nra.
    + rewrite Habs. field. lra.
Qed.

(** X13: [softsign_gradient] is the derivative of [softsign] at every real
    number, 0 included; on finite values [softsign] is odd and lies
    between -1 and 1, and [softsign_gradient] is
    [(1 - |softsign x|)^2], between 0 and 1. *)
Theorem softsign_gradient_is_derivative :
  is_derivative_of softsign_gradient softsign /\
  forall x : R,
    softsign (fneg (Finite x)) = fneg (softsign (Finite x)) /\
    exists s g,
      softsign (Finite x) = Finite s /\ -1 <= s <= 1 /\
      softsign_gradient (Finite x) = Finite g /\ 0 <= g <= 1 /\
      g = (1 - Rabs s) * (1 - Rabs s).
Proof.
  split; [ exact softsign_gradient_derivative_everywhere | exact softsign_bounds ].
Qed.

(** * Further properties: loss functions *)

(** ** Losses that accumulate one real term per sample *)

(** A loop that adds the [i]-th term of a list to a finite accumulator
    at each index returns the sum of the list. *)
Lemma for_loop_accumulates (body : nat -> float -> result float)
    (terms : list R) :
  (forall i acc, (i < length terms)%nat ->
     body i (Finite acc) = Return (Finite (acc + nth i terms 0))) ->
  for_loop body 0 (length terms) (Finite 0) = Return (Finite (Rsum terms)).
Proof.
  intros Hbody.
  destruct (for_loop_invariant body
              (fun i acc => acc = Finite (Rsum (firstn i terms)))
              0 (length terms) (Finite 0)) as [acc [Hloop Hacc]].
  - reflexivity.
  - intros i acc Hi ->. eexists. split; [ apply Hbody; lia | ].
    rewrite (firstn_succ 0) by lia. rewrite Rsum_app. cbn [Rsum].
    f_equal. ring.
  - rewrite Hloop, Hacc. cbn [Nat.add]. rewrite firstn_all. reflexivity.
Qed.

Lemma length_pairwise_terms (g : R -> R -> R) (p t : list R) :
  length p = length t -> length (pairwise_terms g p t) = length p.
Proof.
  intros Hlen. unfold pairwise_terms. rewrite length_map, length_combine. lia.
Qed.

Lemma nth_pairwise_terms (g : R -> R -> R) (p t : list R) (i : nat) :
  length p = length t -> (i < length p)%nat ->
  nth i (pairwise_terms g p t) 0 = g (nth i p 0) (nth i t 0).
Proof.
  intros Hlen Hi. unfold pairwise_terms.
  rewrite nth_indep with (d' := g (fst (0, 0)) (snd (0, 0)))
    by (rewrite length_map, length_combine; lia).
  rewrite (map_nth (fun pt => g (fst pt) (snd pt))).
  rewrite combine_nth by exact Hlen. reflexivity.
Qed.

Lemma Rsum_nonnegative (l : list R) : Forall (fun x => 0 <= x) l -> 0 <= Rsum l.
Proof. induction 1 as [ | x l Hx _ IH ]; cbn [Rsum]; lra. Qed.




Lemma mean_of_nonnegative (terms : list R) :
  Forall (fun x => 0 <= x) terms -> 0 <= mean_of terms.
Proof.
  intros H. unfold mean_of. destruct terms as [ | x terms ].
  - cbn. unfold Rdiv. rewrite Rinv_0. lra.
  - apply Rmult_le_pos; [ apply Rsum_nonnegative, H | ].
    apply Rlt_le, Rinv_0_lt_compat, lt_0_INR. cbn. lia.
Qed.






(** ** Huber loss, beyond its defining formula *)





Lemma Rsum_map_scale (c : R) (l : list R) :
  Rsum (map (fun x => c * x) l) = c * Rsum l.
Proof.
  induction l as [ | x l IH ]; cbn [map Rsum]; [ ring | rewrite IH; ring ].
Qed.





(** ** When a loss returns and when it throws *)

Section GuardedLoop.
Context {S : Type}.
Variable body : nat -> S -> result S.
Variable ok : nat -> Prop.
Variables start count : nat.
Hypothesis ok_decidable : forall i, ok i \/ ~ ok i.
Hypothesis body_returns :
  forall i s, (start <= i < start + count)%nat -> ok i -> returns (body i s).
Hypothesis body_throws :
  forall i s, (start <= i < start + count)%nat -> ~ ok i ->
    exists e, body i s = Throw e.

(** A loop whose body returns at the indices that pass a test and
    throws at the others returns exactly when every index passes. *)
Lemma for_loop_returns_iff (s : S) :
  returns (for_loop body start count s) <->
  forall i, (start <= i < start + count)%nat -> ok i.
Proof.
  split.
  - intros [v Hv] i Hi. destruct (ok_decidable i) as [Hok | Hbad]; [ exact Hok | ].
    destruct (for_loop_must_throw body (fun _ => True) i start count s)
      as [e [He _]]; try trivial.
    + intros s'. apply body_throws; assumption.
    + congruence.
  - intros Hall. apply for_loop_returns. intros i s' Hi.
    apply body_returns; [ exact Hi | apply Hall, Hi ].
Qed.

(** Otherwise it throws one of the exceptions of its body. *)
Lemma for_loop_throws_unless (Q : exception -> Prop) (s : S) :
  (forall i s' e, (start <= i < start + count)%nat ->
     body i s' = Throw e -> Q e) ->
  ~ (forall i, (start <= i < start + count)%nat -> ok i) ->
  exists e, for_loop body start count s = Throw e /\ Q e.
Proof.
  intros HQ Hnot. destruct (for_loop body start count s) as [v | e] eqn:E.
  - elim Hnot. apply (proj1 (for_loop_returns_iff s)). exists v. exact E.
  - exists e. split; [ reflexivity | ].
    apply (for_loop_throw_inv body Q start count s e HQ E).
Qed.
End GuardedLoop.

(** [guarded_loop ok Hdec Hiff Hthrow] finds the loop of the goal and,
    for the test [ok] on indices, decidable by [Hdec], leaves the two
    goals that the body returns where [ok] holds and throws where it
    fails; then it states [for_loop_returns_iff] and
    [for_loop_throws_unless] for this loop as [Hiff] and [Hthrow]. *)
Ltac guarded_loop ok Hdec Hiff Hthrow :=
  match goal with
  | |- context [for_loop ?body ?start ?count ?s] =>
      let Hret := fresh "Hret" in
      let Hthr := fresh "Hthr" in
      assert (Hret : forall i s', (start <= i < start + count)%nat -> ok i ->
                returns (body i s'));
      [ cbv beta
      | assert (Hthr : forall i s', (start <= i < start + count)%nat ->
                  ~ ok i -> exists e, body i s' = Throw e);
        [ cbv beta
        | pose proof (fun s' =>
                        for_loop_returns_iff body ok start count
                          Hdec Hret Hthr s') as Hiff;
          pose proof (fun Q s' =>
                        for_loop_throws_unless body ok start count
                          Hdec Hret Hthr Q s') as Hthrow;
          clear Hret Hthr ] ]
  end.

Lemma all_inside_unit_interval_nth (v : list float) :
  all_inside_unit_interval v <->
  forall i, (i < length v)%nat -> outside_unit_interval (nth i v NaN) = false.
Proof.
  unfold all_inside_unit_interval. rewrite Forall_forall. split.
  - intros H i Hi. apply H, nth_In, Hi.
  - intros H x Hx. apply (In_nth _ _ NaN) in Hx as [i [Hi <-]]. apply H, Hi.
Qed.

Lemma returns_bind_iff {A B : Type} (r : result A) (f : A -> B) :
  returns (bind r (fun v => Return (f v))) <-> returns r.
Proof.
  destruct r as [v | e]; cbn [bind]; split; intros [w Hw];
    try discriminate; eexists; reflexivity.
Qed.

Lemma raises_bind {A B : Type} (r : result A) (f : A -> result B)
    (k : error_kind) :
  raises r k -> raises (bind r f) k.
Proof. intros [e [-> Hk]]. apply raises_Throw, Hk. Qed.

(** X18: [binary_cross_entropy] returns a value exactly when the predictions
    are not empty, the targets are as many, and no prediction and no
    target is below 0 or above 1; when only the last condition fails it
    raises DomainViolation. *)
Theorem binary_cross_entropy_returns_iff (p t : list float) :
  (returns (binary_cross_entropy p t) <->
   p <> [] /\ length p = length t /\
   all_inside_unit_interval p /\ all_inside_unit_interval t) /\
  (p <> [] -> length p = length t ->
   ~ (all_inside_unit_interval p /\ all_inside_unit_interval t) ->
   raises (binary_cross_entropy p t) DomainViolation).
Proof.
  set (ok := fun i => outside_unit_interval (nth i p NaN) = false /\
                      outside_unit_interval (nth i t NaN) = false).
  assert (Hdec : forall i, ok i \/ ~ ok i).
  { intros i. unfold ok.
    destruct (outside_unit_interval (nth i p NaN)),
             (outside_unit_interval (nth i t NaN));
      (left; split; reflexivity) || (right; intros [? ?]; discriminate). }
  assert (Hok : length p = length t ->
            ((forall i, (0 <= i < 0 + length p)%nat -> ok i) <->
             all_inside_unit_interval p /\ all_inside_unit_interval t)).
  { intros Hlen. rewrite !all_inside_unit_interval_nth, <- Hlen. unfold ok.
    split.
    - intros H. split; intros i Hi; apply H; lia.
    - intros [H1 H2] i Hi. split; [ apply H1 | apply H2 ]; lia. }
  unfold binary_cross_entropy.
  destruct p as [ | x p ].
  { cbn [length Nat.eqb]. split.
    - split; [ intros [v Hv]; discriminate | intros [H _]; congruence ].
    - congruence. }
  set (q := x :: p) in *.
  replace (length q =? 0)%nat with false by reflexivity.
  destruct (Nat.eq_dec (length q) (length t)) as [Hlen | Hlen].
  - rewrite size_check_passes by exact Hlen. specialize (Hok Hlen).
    guarded_loop ok Hdec Hiff Hthrow.
    { intros i s _ [H1 H2]. rewrite H1, H2. apply returns_Return. }
    { intros i s _ Hbad. unfold ok in Hbad.
      destruct (outside_unit_interval (nth i q NaN));
        [ eexists; reflexivity | ].
      destruct (outside_unit_interval (nth i t NaN));
        [ eexists; reflexivity | ].
      elim Hbad. split; reflexivity. }
    split.
    + rewrite returns_bind_iff, Hiff, Hok.
      split; [ | intros [_ [_ H]]; exact H ].
      intros [H1 H2].
      split; [ subst q; discriminate | ].
      split; [ exact Hlen | split; assumption ].
    + intros _ _ Hnot. apply raises_bind.
      apply (Hthrow (fun e => kind_of e = DomainViolation)); cbv beta.
      * intros i s e _.
        destruct (outside_unit_interval (nth i q NaN));
          [ intros [= <-]; reflexivity | ].
        destruct (outside_unit_interval (nth i t NaN));
          [ intros [= <-]; reflexivity | discriminate ].
      * rewrite Hok. exact Hnot.
  - rewrite size_check_fails by exact Hlen. split.
    + split; [ intros [v Hv]; discriminate | intros [_ [H _]]; contradiction ].
    + intros _ H. contradiction.
Qed.

Lemma binary_cross_entropy_returns_iff_witness :
  raises (binary_cross_entropy [Finite 1.5] [Finite 1]) DomainViolation.
Proof.
  apply (proj2 (binary_cross_entropy_returns_iff [Finite 1.5] [Finite 1])).
  - discriminate.
  - reflexivity.
  - intros [H _]. inversion H as [ | ? ? Hx _ ]; subst.
    rewrite outside_unit_interval_above in Hx by lra. discriminate.
Defined.

(** X19: [hinge_loss] returns a value exactly when the targets are as many
    as the predictions and each of them is -1 or 1, whatever the
    predictions are; when only the second condition fails it raises
    DomainViolation. *)
Theorem hinge_loss_returns_iff (p : list float) (t : list Z) :
  (returns (hinge_loss p t) <->
   length p = length t /\ Forall (fun z => z = (-1)%Z \/ z = 1%Z) t) /\
  (length p = length t -> ~ Forall (fun z => z = (-1)%Z \/ z = 1%Z) t ->
   raises (hinge_loss p t) DomainViolation).
Proof.
  set (ok := fun i => nth i t 0%Z = (-1)%Z \/ nth i t 0%Z = 1%Z).
  assert (Hdec : forall i, ok i \/ ~ ok i) by (intros i; unfold ok; lia).
  assert (Htest : forall i,
            negb (nth i t 0 =? -1)%Z && negb (nth i t 0 =? 1)%Z = false
            <-> ok i).
  { intros i. unfold ok.
    destruct (Z.eqb_spec (nth i t 0%Z) (-1)), (Z.eqb_spec (nth i t 0%Z) 1);
      cbn; split; intros H; try reflexivity; try discriminate; lia. }
  assert (Hok : length p = length t ->
            ((forall i, (0 <= i < 0 + length p)%nat -> ok i) <->
             Forall (fun z => z = (-1)%Z \/ z = 1%Z) t)).
  { intros Hlen. rewrite Hlen, Forall_forall. unfold ok. split.
    - intros H z Hz. apply (In_nth _ _ 0%Z) in Hz as [i [Hi <-]].
      apply H. lia.
    - intros H i Hi. apply H, nth_In. lia. }
  unfold hinge_loss.
  destruct (Nat.eq_dec (length p) (length t)) as [Hlen | Hlen].
  - rewrite size_check_passes by exact Hlen. specialize (Hok Hlen).
    guarded_loop ok Hdec Hiff Hthrow.
    { intros i s _ Hi. apply Htest in Hi. rewrite Hi.
      destruct (fgt _ _); apply returns_Return. }
    { intros i s _ Hbad.
      destruct (negb (nth i t 0 =? -1)%Z && negb (nth i t 0 =? 1)%Z) eqn:E;
        [ eexists; reflexivity | ].
      elim Hbad. apply Htest, E. }
    split.
    + rewrite returns_bind_iff, Hiff, Hok. tauto.
    + intros _ Hnot. apply raises_bind.
      apply (Hthrow (fun e => kind_of e = DomainViolation)); cbv beta.
      * intros i s e _.
        destruct (negb (nth i t 0 =? -1)%Z && negb (nth i t 0 =? 1)%Z);
          [ intros [= <-]; reflexivity | ].
        destruct (fgt _ _); discriminate.
      * rewrite Hok. exact Hnot.
  - rewrite size_check_fails by exact Hlen. split.
    + split; [ intros [v Hv]; discriminate | intros [H _]; contradiction ].
    + intros H. contradiction.
Qed.

Lemma hinge_loss_returns_iff_witness :
  raises (hinge_loss [Finite 0.8; NaN] [1%Z; 0%Z]) DomainViolation.
Proof.
  apply (proj2 (hinge_loss_returns_iff [Finite 0.8; NaN] [1%Z; 0%Z])).
  - reflexivity.
  - intros H. inversion H as [ | ? ? _ H' ]; subst.
    inversion H' as [ | ? ? Hz _ ]; subst. lia.
Defined.

(** X20: [sparse_categorical_cross_entropy] returns a value exactly when the
    targets are as many as the samples and each target is an index into
    the predictions of its sample, whatever the predictions are; when
    only the second condition fails it raises DomainViolation. *)
Theorem sparse_categorical_cross_entropy_returns_iff
    (p : list (list float)) (t : list Z) :
  let valid := forall i, (i < length p)%nat ->
                 (0 <= nth i t 0 < Z.of_nat (length (nth i p [])))%Z in
  (returns (sparse_categorical_cross_entropy p t) <->
   length p = length t /\ valid) /\
  (length p = length t -> ~ valid ->
   raises (sparse_categorical_cross_entropy p t) DomainViolation).
Proof.
  intros valid.
  set (ok := fun i => (0 <= nth i t 0 < Z.of_nat (length (nth i p [])))%Z).
  assert (Hdec : forall i, ok i \/ ~ ok i) by (intros i; unfold ok; lia).
  assert (Htest : forall i,
            (nth i t 0 <? 0)%Z
            || (Z.of_nat (length (nth i p [])) <=? nth i t 0)%Z = false
            <-> ok i).
  { intros i. unfold ok.
    destruct (Z.ltb_spec (nth i t 0%Z) 0),
             (Z.leb_spec (Z.of_nat (length (nth i p []))) (nth i t 0%Z));
      cbn; split; intros Hi; try reflexivity; try discriminate; lia. }
  assert (Hok : (forall i, (0 <= i < 0 + length p)%nat -> ok i) <-> valid).
  { unfold valid, ok. split; intros H i Hi; apply H; lia. }
  unfold sparse_categorical_cross_entropy.
  destruct (Nat.eq_dec (length p) (length t)) as [Hlen | Hlen].
  - rewrite size_check_passes by exact Hlen.
    guarded_loop ok Hdec Hiff Hthrow.
    { intros i s _ Hi. apply Htest in Hi. rewrite Hi. apply returns_Return. }
    { intros i s _ Hbad.
      destruct ((nth i t 0 <? 0)%Z
                || (Z.of_nat (length (nth i p [])) <=? nth i t 0)%Z) eqn:E;
        [ eexists; reflexivity | ].
      elim Hbad. apply Htest, E. }
    split.
    + rewrite returns_bind_iff, Hiff, Hok. tauto.
    + intros _ Hnot. apply raises_bind.
      apply (Hthrow (fun e => kind_of e = DomainViolation)); cbv beta.
      * intros i s e _.
        destruct ((nth i t 0 <? 0)%Z
                  || (Z.of_nat (length (nth i p [])) <=? nth i t 0)%Z);
          [ intros [= <-]; reflexivity | discriminate ].
      * rewrite Hok. exact Hnot.
  - rewrite size_check_fails by exact Hlen. split.
    + split; [ intros [v Hv]; discriminate | intros [H _]; contradiction ].
    + intros H. contradiction.
Qed.

Lemma sparse_categorical_cross_entropy_returns_iff_witness :
  raises (sparse_categorical_cross_entropy
            [[Finite 0.7; Finite 0.2; Finite 0.1]] [3%Z]) DomainViolation.
Proof.
  apply (proj2 (sparse_categorical_cross_entropy_returns_iff
                  [[Finite 0.7; Finite 0.2; Finite 0.1]] [3%Z])).
  - reflexivity.
  - intros H. specialize (H 0%nat ltac:(cbn; lia)). cbn in H. lia.
Defined.

Lemma all_inside_unit_interval_decidable (v : list float) :
  all_inside_unit_interval v \/ ~ all_inside_unit_interval v.
Proof.
  unfold all_inside_unit_interval.
  induction v as [ | x v [IH | IH] ].
  - left. constructor.
  - destruct (outside_unit_interval x) eqn:E.
    + right. intros H. inversion H; subst. congruence.
    + left. constructor; assumption.
  - right. intros H. inversion H; subst. contradiction.
Qed.

Lemma pair_inside_unit_interval_nth (p t : list float) :
  length p = length t ->
  ((forall i, (0 <= i < 0 + length p)%nat ->
      outside_unit_interval (nth i p NaN) = false /\
      outside_unit_interval (nth i t NaN) = false) <->
   all_inside_unit_interval p /\ all_inside_unit_interval t).
Proof.
  intros Hlen. rewrite !all_inside_unit_interval_nth, <- Hlen. split.
  - intros H. split; intros i Hi; apply H; lia.
  - intros [H1 H2] i Hi. split; [ apply H1 | apply H2 ]; lia.
Qed.

Lemma rows_nth (P : list float -> Prop) (m : list (list float)) :
  Forall P m <-> forall i, (i < length m)%nat -> P (nth i m []).
Proof.
  rewrite Forall_forall. split.
  - intros H i Hi. apply H, nth_In, Hi.
  - intros H x Hx. apply (In_nth _ _ []) in Hx as [i [Hi <-]]. apply H, Hi.
Qed.

(** The loop of [kullback_leibler_divergence] over one sample throws a
    range exception as soon as an entry fails the range test. *)
Lemma kullback_leibler_divergence_sample_throws (p t : list float)
    (kl_div : float) :
  length p = length t ->
  ~ (all_inside_unit_interval p /\ all_inside_unit_interval t) ->
  exists e,
    for_loop
      (fun j kl_div =>
         if outside_unit_interval (nth j p NaN) then
           Throw (out_of_range predictions_range_msg)
         else if outside_unit_interval (nth j t NaN) then
           Throw (out_of_range targets_range_msg)
         else if feq (nth j t NaN) (Finite 0) then
           Return kl_div
         else
           Return (fadd kl_div
                     (fmul (nth j t NaN)
                        (flog (fdiv (nth j t NaN) (nth j p NaN))))))
      0 (length p) kl_div = Throw e /\
    kind_of e = DomainViolation.
Proof.
  intros Hlen Hnot.
  set (ok := fun j => outside_unit_interval (nth j p NaN) = false /\
                      outside_unit_interval (nth j t NaN) = false).
  assert (Hdec : forall j, ok j \/ ~ ok j).
  { intros j. unfold ok.
    destruct (outside_unit_interval (nth j p NaN)),
             (outside_unit_interval (nth j t NaN));
      (left; split; reflexivity) || (right; intros [? ?]; discriminate). }
  guarded_loop ok Hdec Hiff Hthrow.
  { intros j s _ [H1 H2]. rewrite H1, H2.
    destruct (feq _ _); apply returns_Return. }
  { intros j s _ Hbad. unfold ok in Hbad.
    destruct (outside_unit_interval (nth j p NaN));
      [ eexists; reflexivity | ].
    destruct (outside_unit_interval (nth j t NaN));
      [ eexists; reflexivity | ].
    elim Hbad. split; reflexivity. }
  apply (Hthrow (fun e => kind_of e = DomainViolation)); cbv beta.
  - intros j s e _.
    destruct (outside_unit_interval (nth j p NaN));
      [ intros [= <-]; reflexivity | ].
    destruct (outside_unit_interval (nth j t NaN));
      [ intros [= <-]; reflexivity | ].
    destruct (feq _ _); discriminate.
  - unfold ok. rewrite pair_inside_unit_interval_nth by exact Hlen. exact Hnot.
Qed.

(** X21: [kullback_leibler_divergence] returns a value exactly when the two
    batches agree in shape and no entry of either is below 0 or above
    1; when the shapes agree and some entry is out of range it raises
    DomainViolation. *)
Theorem kullback_leibler_divergence_returns_iff (p t : list (list float)) :
  (returns (kullback_leibler_divergence p t) <->
   ~ batch_shape_differs p t /\
   Forall all_inside_unit_interval p /\ Forall all_inside_unit_interval t) /\
  (~ batch_shape_differs p t ->
   ~ (Forall all_inside_unit_interval p /\ Forall all_inside_unit_interval t) ->
   raises (kullback_leibler_divergence p t) DomainViolation).
Proof.
  set (ok := fun i => length (nth i p []) = length (nth i t []) /\
                      all_inside_unit_interval (nth i p []) /\
                      all_inside_unit_interval (nth i t [])).
  assert (Hdec : forall i, ok i \/ ~ ok i).
  { intros i. unfold ok.
    destruct (Nat.eq_dec (length (nth i p [])) (length (nth i t []))),
             (all_inside_unit_interval_decidable (nth i p [])),
             (all_inside_unit_interval_decidable (nth i t [])); tauto. }
  assert (Hok : length p = length t ->
            ((forall i, (0 <= i < 0 + length p)%nat -> ok i) <->
             ~ batch_shape_differs p t /\
             Forall all_inside_unit_interval p /\
             Forall all_inside_unit_interval t)).
  { intros Hlen. rewrite !rows_nth, <- Hlen. unfold ok. split.
    - intros H. split; [ | split ].
      + intros [Hne | [i [Hi Hrow]]]; [ contradiction | ].
        apply Hrow. apply H. lia.
      + intros i Hi. apply H. lia.
      + intros i Hi. apply H. lia.
    - intros [Hshape [H1 H2]] i Hi.
      apply batch_shape_agrees in Hshape as [_ Hrows].
      split; [ apply Hrows; lia | split; [ apply H1 | apply H2 ]; lia ]. }
  unfold kullback_leibler_divergence.
  destruct (Nat.eq_dec (length p) (length t)) as [Hlen | Hlen].
  - rewrite size_check_passes by exact Hlen. specialize (Hok Hlen).
    guarded_loop ok Hdec Hiff Hthrow.
    { intros i s _ [H1 [H2 H3]]. rewrite size_check_passes by exact H1.
      apply kullback_leibler_divergence_sample_returns; assumption. }
    { intros i s _ Hbad.
      destruct (Nat.eq_dec (length (nth i p [])) (length (nth i t [])))
        as [Hrow | Hrow].
      - rewrite size_check_passes by exact Hrow.
        destruct (kullback_leibler_divergence_sample_throws
                    (nth i p []) (nth i t []) s Hrow) as [e [He _]].
        + unfold ok in Hbad. tauto.
        + exists e. exact He.
      - rewrite size_check_fails by exact Hrow. eexists. reflexivity. }
    split.
    + rewrite returns_bind_iff, Hiff, Hok. tauto.
    + intros Hshape Hnot. apply raises_bind.
      apply (Hthrow (fun e => kind_of e = DomainViolation)); cbv beta.
      * intros i s e Hi.
        apply batch_shape_agrees in Hshape as [_ Hrows].
        rewrite size_check_passes by (apply Hrows; lia).
        intros He.
        destruct (all_inside_unit_interval_decidable (nth i p [])) as [H1 | H1];
          [ destruct (all_inside_unit_interval_decidable (nth i t []))
              as [H2 | H2] | ].
        -- destruct (kullback_leibler_divergence_sample_returns
                       (nth i p []) (nth i t []) s) as [v Hv];
             [ apply Hrows; lia | exact H1 | exact H2 | congruence ].
        -- destruct (kullback_leibler_divergence_sample_throws
                       (nth i p []) (nth i t []) s) as [e' [He' Hk]];
             [ apply Hrows; lia | tauto | congruence ].
        -- destruct (kullback_leibler_divergence_sample_throws
                       (nth i p []) (nth i t []) s) as [e' [He' Hk]];
             [ apply Hrows; lia | tauto | congruence ].
      * rewrite Hok. tauto.
  - rewrite size_check_fails by exact Hlen. split.
    + split; [ intros [v Hv]; discriminate | ].
      intros [H _]. elim H. left. exact Hlen.
    + intros H. elim H. left. exact Hlen.
Qed.

Lemma kullback_leibler_divergence_returns_iff_witness :
  raises (kullback_leibler_divergence [[Finite 0.5; Finite 2]]
                                      [[Finite 0.5; Finite 0.5]])
         DomainViolation.
Proof.
  apply (proj2 (kullback_leibler_divergence_returns_iff
                  [[Finite 0.5; Finite 2]] [[Finite 0.5; Finite 0.5]])).
  - intros [Hlen | [i [Hi Hrow]]].
    + apply Hlen. reflexivity.
    + cbn in Hi. assert (i = 0%nat) as -> by lia. apply Hrow. reflexivity.
  - intros [H _]. inversion H as [ | ? ? Hrow _ ]; subst.
    inversion Hrow as [ | ? ? _ Hrest ]; subst.
    inversion Hrest as [ | ? ? Hx _ ]; subst.
    rewrite outside_unit_interval_above in Hx by lra. discriminate.
Defined.

(** ** Kullback-Leibler divergence of a batch against itself *)

Lemma nth_map_map_Finite (m : list (list R)) (i : nat) :
  nth i (map (map Finite) m) [] = map Finite (nth i m []).
Proof. exact (map_nth (map Finite) m [] i). Qed.

(** One class of a sample compared with itself adds nothing. *)
Lemma kullback_leibler_divergence_same_entry (x : R) :
  0 <= x <= 1 ->
  (if outside_unit_interval (Finite x) then
     Throw (out_of_range predictions_range_msg)
   else if outside_unit_interval (Finite x) then
     Throw (out_of_range targets_range_msg)
   else if feq (Finite x) (Finite 0) then Return (Finite 0)
   else
     Return (fadd (Finite 0)
               (fmul (Finite x) (flog (fdiv (Finite x) (Finite x))))))
  = Return (Finite 0).
Proof.
  intros Hx. rewrite outside_unit_interval_inside by exact Hx.
  destruct (Req_dec x 0) as [-> | Hne].
  - rewrite feq_finite_true by reflexivity. reflexivity.
  - rewrite feq_finite_false by exact Hne.
    rewrite fdiv_finite by exact Hne.
    replace (x / x) with 1 by (field; exact Hne).
    rewrite flog_positive by lra. rewrite ln_1. cbn [fmul fadd].
    do 2 f_equal. ring.
Qed.

(** X22: The divergence of a non-empty batch of finite values in [0,1]
    from itself is 0. *)
Theorem kullback_leibler_divergence_of_identical_batches (p : list (list R)) :
  p <> [] ->
  Forall (Forall (fun x => 0 <= x <= 1)) p ->
  kullback_leibler_divergence (map (map Finite) p) (map (map Finite) p)
    = Return (Finite 0).
Proof.
  intros Hp Hrange. unfold kullback_leibler_divergence.
  rewrite size_check_passes by reflexivity.
  loop_invariant (fun (_ : nat) kl_div => kl_div = Finite 0) kl_div Hloop Hkl;
    [ reflexivity | | ].
  - intros i acc Hi ->. rewrite length_map in Hi.
    rewrite size_check_passes by reflexivity.
    rewrite nth_map_map_Finite.
    assert (Hrow : Forall (fun x => 0 <= x <= 1) (nth i p [])).
    { rewrite Forall_forall in Hrange. apply Hrange, nth_In. lia. }
    loop_invariant (fun (_ : nat) kl_div => kl_div = Finite 0) acc' Hin Hacc;
      [ reflexivity | | ].
    + intros j acc Hj ->. rewrite length_map in Hj.
      rewrite nth_map_Finite by lia.
      exists (Finite 0). split; [ | reflexivity ].
      apply kullback_leibler_divergence_same_entry.
      rewrite Forall_forall in Hrow. apply Hrow, nth_In. lia.
    + exists acc'. split; [ exact Hin | exact Hacc ].
  - rewrite Hloop, Hkl. cbn [bind]. rewrite length_map.
    rewrite fdiv_by_size by (apply length_nonzero, Hp).
    do 2 f_equal. unfold Rdiv. ring.
Qed.

Lemma kullback_leibler_divergence_of_identical_batches_witness :
  kullback_leibler_divergence (map (map Finite) [[0.25; 0.75; 0]; [1]])
                              (map (map Finite) [[0.25; 0.75; 0]; [1]])
    = Return (Finite 0).
Proof.
  apply (kullback_leibler_divergence_of_identical_batches
           [[0.25; 0.75; 0]; [1]]).
  - discriminate.
  - repeat constructor; lra.
Defined.

(** ** Categorical cross-entropy and its sparse form *)

(** X23: [categorical_cross_entropy] reads a target only to compare it with
    1: on batches of the same shape in which no target is exactly 1 it
    returns 0, whatever the predictions are. *)
Theorem categorical_cross_entropy_without_hot_target (p t : list (list float)) :
  p <> [] ->
  ~ batch_shape_differs p t ->
  Forall (Forall (fun x => feq x (Finite 1) = false)) t ->
  categorical_cross_entropy p t = Return (Finite 0).
Proof.
  intros Hp Hshape Hcold.
  apply batch_shape_agrees in Hshape as [Hlen Hrows].
  unfold categorical_cross_entropy.
  rewrite size_check_passes by exact Hlen.
  loop_invariant (fun (_ : nat) cce => cce = Finite 0) cce Hloop Hcce;
    [ reflexivity | | ].
  - intros i acc Hi ->.
    rewrite size_check_passes by (apply Hrows; lia).
    assert (Hrow : Forall (fun x => feq x (Finite 1) = false) (nth i t [])).
    { rewrite Forall_forall in Hcold. apply Hcold, nth_In. lia. }
    loop_invariant (fun (_ : nat) cce => cce = Finite 0) acc' Hin Hacc;
      [ reflexivity | | ].
    + intros j acc Hj ->. rewrite Forall_forall in Hrow.
      rewrite (Hrow (nth j (nth i t []) NaN))
        by (apply nth_In; rewrite <- Hrows; lia).
      exists (Finite 0). split; reflexivity.
    + exists acc'. split; [ exact Hin | exact Hacc ].
  - rewrite Hloop, Hcce. cbn [bind].
    rewrite fdiv_by_size by (apply length_nonzero, Hp).
    do 2 f_equal. unfold Rdiv. ring.
Qed.

Lemma categorical_cross_entropy_without_hot_target_witness :
  categorical_cross_entropy [[Finite 0.3; NaN]] [[Finite 0.9; Finite 0.1]]
    = Return (Finite 0).
Proof.
  apply (categorical_cross_entropy_without_hot_target
           [[Finite 0.3; NaN]] [[Finite 0.9; Finite 0.1]]).
  - discriminate.
  - intros [Hlen | [i [Hi Hrow]]].
    + apply Hlen. reflexivity.
    + cbn in Hi. assert (i = 0%nat) as -> by lia. apply Hrow. reflexivity.
  - repeat constructor; apply feq_finite_false; lra.
Defined.

Lemma for_loop_ext {S : Type} (body1 body2 : nat -> S -> result S)
    (start count : nat) (s : S) :
  (forall i s', (start <= i < start + count)%nat -> body1 i s' = body2 i s') ->
  for_loop body1 start count s = for_loop body2 start count s.
Proof.
  revert start s. induction count as [ | count IH ]; intros start s H.
  - reflexivity.
  - cbn [for_loop]. rewrite H by lia.
    destruct (body2 start s) as [s' | e]; cbn [bind]; [ | reflexivity ].
    apply IH. intros i s'' Hi. apply H. lia.
Qed.

Lemma length_one_hot (n k : nat) : length (one_hot n k) = n.
Proof. unfold one_hot. rewrite length_map, length_seq. reflexivity. Qed.

Lemma nth_one_hot (n k j : nat) :
  (j < n)%nat ->
  nth j (one_hot n k) NaN = if (j =? k)%nat then Finite 1 else Finite 0.
Proof. intros Hj. unfold one_hot. apply nth_map_seq, Hj. Qed.

(** On a one-hot target the loop over the classes subtracts the
    logarithm of the prediction of the hot class, once. *)
Lemma categorical_cross_entropy_one_hot_sample (row : list float) (k : nat)
    (cce : float) :
  (k < length row)%nat ->
  for_loop
    (fun j cce =>
       if feq (nth j (one_hot (length row) k) NaN) (Finite 1) then
         Return (fsub cce (flog (nth j row NaN)))
       else Return cce)
    0 (length row) cce
  = Return (fsub cce (flog (nth k row NaN))).
Proof.
  intros Hk.
  loop_invariant
    (fun j acc =>
       acc = if (j <=? k)%nat then cce else fsub cce (flog (nth k row NaN)))
    acc Hloop Hacc.
  - reflexivity.
  - intros j acc Hj ->. rewrite nth_one_hot by lia.
    destruct (Nat.eqb_spec j k) as [-> | Hne].
    + rewrite feq_finite_true by reflexivity.
      rewrite Nat.leb_refl. eexists. split; [ reflexivity | ].
      replace (Datatypes.S k <=? k)%nat with false
        by (symmetry; apply Nat.leb_gt; lia).
      reflexivity.
    + rewrite feq_finite_false by lra.
      eexists. split; [ reflexivity | ].
      destruct (Nat.leb_spec j k), (Nat.leb_spec (Datatypes.S j) k);
        try reflexivity; lia.
  - rewrite Hloop, Hacc.
    replace (0 + length row <=? k)%nat with false
      by (symmetry; apply Nat.leb_gt; lia).
    reflexivity.
Qed.

Lemma length_one_hot_targets (p : list (list float)) (t : list Z) :
  length p = length t -> length (one_hot_targets p t) = length p.
Proof.
  intros Hlen. unfold one_hot_targets. rewrite length_map, length_combine. lia.
Qed.

Lemma nth_one_hot_targets (p : list (list float)) (t : list Z) (i : nat) :
  length p = length t -> (i < length p)%nat ->
  nth i (one_hot_targets p t) []
    = one_hot (length (nth i p [])) (Z.to_nat (nth i t 0%Z)).
Proof.
  intros Hlen Hi. unfold one_hot_targets.
  set (hot := fun pk : list float * Z =>
                one_hot (length (fst pk)) (Z.to_nat (snd pk))).
  rewrite nth_indep with (d' := hot ([], 0%Z))
    by (rewrite length_map, length_combine; lia).
  rewrite (map_nth hot).
  rewrite combine_nth by exact Hlen. reflexivity.
Qed.

(** X24: With valid class indices, [sparse_categorical_cross_entropy] is
    [categorical_cross_entropy] on the one-hot encoding of the indices,
    whatever the predictions are. *)
Theorem sparse_is_categorical_on_one_hot
    (p : list (list float)) (t : list Z) :
  length p = length t ->
  (forall i, (i < length p)%nat ->
     (0 <= nth i t 0 < Z.of_nat (length (nth i p [])))%Z) ->
  categorical_cross_entropy p (one_hot_targets p t)
    = sparse_categorical_cross_entropy p t.
Proof.
  intros Hlen Hvalid.
  unfold categorical_cross_entropy, sparse_categorical_cross_entropy.
  rewrite length_one_hot_targets by exact Hlen.
  rewrite !size_check_passes by (reflexivity || exact Hlen).
  f_equal. apply for_loop_ext. intros i cce Hi.
  specialize (Hvalid i ltac:(lia)).
  rewrite nth_one_hot_targets by (exact Hlen || lia).
  rewrite length_one_hot, size_check_passes by reflexivity.
  replace ((nth i t 0 <? 0)%Z
           || (Z.of_nat (length (nth i p [])) <=? nth i t 0)%Z) with false.
  - apply categorical_cross_entropy_one_hot_sample. lia.
  - symmetry. apply orb_false_intro; [ apply Z.ltb_ge | apply Z.leb_gt ]; lia.
Qed.

Lemma sparse_is_categorical_on_one_hot_witness :
  categorical_cross_entropy [[Finite 0.7; Finite 0.2; Finite 0.1]]
    (one_hot_targets [[Finite 0.7; Finite 0.2; Finite 0.1]] [0%Z])
  = sparse_categorical_cross_entropy
      [[Finite 0.7; Finite 0.2; Finite 0.1]] [0%Z].
Proof.
  apply (sparse_is_categorical_on_one_hot
           [[Finite 0.7; Finite 0.2; Finite 0.1]] [0%Z]).
  - reflexivity.
  - intros i Hi. cbn in Hi. assert (i = 0%nat) as -> by lia. cbn. lia.
Defined.

(** ** Binary cross-entropy: values *)

Lemma fadd_NaN_r (x : float) : fadd x NaN = NaN.
Proof. destruct x; reflexivity. Qed.

Lemma fmul_zero_NegInf : fmul (Finite 0) NegInf = NaN.
Proof.
  cbn [fmul]. unfold Rsign.
  destruct (Rlt_dec 0 0); [ lra | ]. reflexivity.
Qed.

Lemma flog_zero : flog (Finite 0) = NegInf.
Proof.
  unfold flog. destruct (Rlt_dec 0 0); [ lra | ].
  destruct (Req_dec_T 0 0); [ reflexivity | congruence ].
Qed.

(** The term that [binary_cross_entropy] adds for a prediction equal to
    its target 1, or to its target 0, is NaN. *)
Lemma binary_cross_entropy_term_exact (x : R) :
  x = 1 \/ x = 0 ->
  fadd (fmul (Finite x) (flog (Finite x)))
       (fmul (fsub (of_int 1) (Finite x)) (flog (fsub (of_int 1) (Finite x))))
  = NaN.
Proof.
  intros [-> | ->]; unfold of_int; cbn [fsub fneg fadd].
  - replace (1 + - (1)) with 0 by ring.
    rewrite flog_zero, fmul_zero_NegInf. apply fadd_NaN_r.
  - rewrite flog_zero, fmul_zero_NegInf. reflexivity.
Qed.

(** X25: A prediction that is exactly 1 for the target 1, or exactly 0 for
    the target 0, makes [binary_cross_entropy] return NaN (no clipping:
    the term is 0 times the logarithm of 0), whatever the other samples
    are, provided that they pass the range test. *)
Theorem binary_cross_entropy_nan_on_exact_prediction
    (p t : list float) (i : nat) :
  length p = length t ->
  all_inside_unit_interval p -> all_inside_unit_interval t ->
  (i < length p)%nat ->
  (nth i p NaN = Finite 1 /\ nth i t NaN = Finite 1) \/
  (nth i p NaN = Finite 0 /\ nth i t NaN = Finite 0) ->
  binary_cross_entropy p t = Return NaN.
Proof.
  intros Hlen Hp Ht Hi Hexact. unfold binary_cross_entropy.
  replace (length p =? 0)%nat with false
    by (symmetry; apply Nat.eqb_neq; lia).
  rewrite size_check_passes by exact Hlen.
  rewrite all_inside_unit_interval_nth in Hp, Ht.
  loop_invariant (fun j bce => (i < j)%nat -> bce = NaN) bce Hloop Hbce.
  - lia.
  - intros j acc Hj Hacc.
    rewrite Hp, Ht by lia. eexists. split; [ reflexivity | ].
    intros Hij. destruct (Nat.eq_dec j i) as [-> | Hne].
    + assert (Hx : exists x, nth i p NaN = Finite x /\ nth i t NaN = Finite x
                             /\ (x = 1 \/ x = 0)).
      { destruct Hexact as [[H1 H2] | [H1 H2]];
          [ exists 1 | exists 0 ]; repeat split; auto. }
      destruct Hx as [x [-> [-> Hx]]].
      rewrite binary_cross_entropy_term_exact by exact Hx.
      apply fadd_NaN_r.
    + rewrite Hacc by lia. reflexivity.
  - rewrite Hloop. cbn [bind]. rewrite Hbce by lia. reflexivity.
Qed.

Lemma binary_cross_entropy_nan_on_exact_prediction_witness :
  binary_cross_entropy [Finite 0.9; Finite 1] [Finite 1; Finite 1]
    = Return NaN.
Proof.
  apply (binary_cross_entropy_nan_on_exact_prediction
           [Finite 0.9; Finite 1] [Finite 1; Finite 1] 1).
  - reflexivity.
  - repeat constructor; apply outside_unit_interval_inside; lra.
  - repeat constructor; apply outside_unit_interval_inside; lra.
  - cbn. lia.
  - left. split; reflexivity.
Defined.

Lemma pairwise_terms_nonnegative_in (g : R -> R -> R) (p t : list R) :
  (forall a b, In (a, b) (combine p t) -> 0 <= g a b) ->
  Forall (fun x => 0 <= x) (pairwise_terms g p t).
Proof.
  intros Hg. unfold pairwise_terms. apply Forall_forall. intros x Hx.
  apply in_map_iff in Hx as [[a b] [<- Hin]]. apply Hg, Hin.
Qed.

Lemma ln_negative (x : R) : 0 < x < 1 -> ln x < 0.
Proof. intros Hx. rewrite <- ln_1. apply ln_increasing; lra. Qed.

(** X26: With predictions strictly between 0 and 1 and targets in [0,1]
    (finite, equal in number, at least one), [binary_cross_entropy]
    returns the mean of [-(t ln p + (1 - t) ln (1 - p))], which is not
    negative. *)
Theorem binary_cross_entropy_value (p t : list R) :
  length p = length t -> p <> [] ->
  Forall (fun x => 0 < x < 1) p -> Forall (fun x => 0 <= x <= 1) t ->
  exists bce,
    binary_cross_entropy (map Finite p) (map Finite t) = Return (Finite bce) /\
    bce = mean_of (pairwise_terms cross_entropy_term p t) /\
    0 <= bce.
Proof.
  intros Hlen Hne Hp Ht.
  rewrite Forall_forall in Hp, Ht.
  set (g := fun a b => b * ln a + (1 - b) * ln (1 - a)).
  assert (Hterms : pairwise_terms cross_entropy_term p t
                   = map (fun x => -1 * x) (pairwise_terms g p t)).
  { unfold pairwise_terms. rewrite map_map. apply map_ext.
    intros [a b]. unfold cross_entropy_term, g. cbn [fst snd]. ring. }
  exists (mean_of (pairwise_terms cross_entropy_term p t)).
  split; [ | split; [ reflexivity | ] ].
  - unfold binary_cross_entropy. rewrite !length_map.
    replace (length p =? 0)%nat with false
      by (symmetry; apply Nat.eqb_neq, length_nonzero, Hne).
    rewrite size_check_passes by exact Hlen.
    rewrite <- (length_pairwise_terms g p t Hlen).
    rewrite for_loop_accumulates.
    + cbn [bind fneg]. rewrite fdiv_by_size
        by (rewrite length_pairwise_terms by exact Hlen;
            apply length_nonzero, Hne).
      do 2 f_equal. unfold mean_of.
      rewrite Hterms, Rsum_map_scale, length_map. unfold Rdiv. ring.
    + intros i acc Hi. rewrite length_pairwise_terms in Hi by exact Hlen.
      rewrite !nth_map_Finite, nth_pairwise_terms by lia.
      pose proof (Hp (nth i p 0) ltac:(apply nth_In; lia)) as Hpi.
      pose proof (Ht (nth i t 0) ltac:(apply nth_In; lia)) as Hti.
      rewrite !outside_unit_interval_inside by lra.
      unfold of_int. cbn [fsub fneg fadd].
      rewrite !flog_positive by lra. cbn [fmul fadd].
      unfold g. do 2 f_equal.
  - apply mean_of_nonnegative, pairwise_terms_nonnegative_in.
    intros a b Hin. unfold cross_entropy_term.
    pose proof (Hp a (in_combine_l _ _ _ _ Hin)) as Ha.
    pose proof (Ht b (in_combine_r _ _ _ _ Hin)) as Hb.
    pose proof (ln_negative a Ha) as H1.
    pose proof (ln_negative (1 - a) ltac:(lra)) as H2.
    nra.
Qed.

Lemma binary_cross_entropy_value_witness :
  exists bce,
    binary_cross_entropy (map Finite [0.9; 0.1]) (map Finite [1; 0])
      = Return (Finite bce) /\
    bce = mean_of (pairwise_terms cross_entropy_term [0.9; 0.1] [1; 0]) /\
    0 <= bce.
Proof.
  apply (binary_cross_entropy_value [0.9; 0.1] [1; 0]).
  - reflexivity.
  - discriminate.
  - repeat constructor; lra.
  - repeat constructor; lra.
Defined.

(** ** Hinge loss: values *)






(** * Further properties: the softmax Jacobian *)

Lemma softmax_gradient_finite (logits : list R) :
  logits <> [] ->
  let n := length logits in
  softmax_gradient (map Finite logits)
    = Some (map (fun i =>
                   map (fun j => Finite (jacobian_of (stable_softmax logits) i j))
                       (seq 0 n))
                (seq 0 n)).
Proof.
  intros Hne n. destruct logits as [ | x rest ]; [ congruence | ].
  pose proof (softmax_gradient_closed_form
                (map Finite (x :: rest)) (Finite (Rlist_max x rest))
                (max_element_finite x rest)) as Hclosed.
  cbv zeta in Hclosed.
  rewrite softmax_values_finite, length_map in Hclosed.
  rewrite Hclosed. f_equal. fold n.
  apply map_ext_in. intros i Hi. apply in_seq in Hi.
  apply map_ext_in. intros j Hj. apply in_seq in Hj.
  apply jacobian_entry_finite; rewrite length_stable_softmax; unfold n in *; lia.
Qed.

Lemma jacobian_of_symmetric (p : list R) (i j : nat) :
  jacobian_of p i j = jacobian_of p j i.
Proof.
  unfold jacobian_of. rewrite (Nat.eqb_sym j i).
  destruct (Nat.eqb_spec i j) as [-> | _]; [ reflexivity | ring ].
Qed.

(** X28: On non-empty finite logits the Jacobian is symmetric, and its
    columns, like its rows, sum to 0. *)
Theorem softmax_jacobian_is_symmetric (logits : list R) :
  logits <> [] ->
  let n := length logits in
  exists jacobian,
    softmax_gradient (map Finite logits) = Some jacobian /\
    (forall i j, (i < n)%nat -> (j < n)%nat ->
       nth j (nth i jacobian []) NaN = nth i (nth j jacobian []) NaN) /\
    (forall j, (j < n)%nat ->
       fsum (map (fun row => nth j row NaN) jacobian) = Finite 0).
Proof.
  intros Hne n. eexists.
  split; [ apply softmax_gradient_finite, Hne | ]. fold n.
  set (p := stable_softmax logits).
  assert (Hentry : forall i j, (i < n)%nat -> (j < n)%nat ->
            nth j (nth i
                     (map (fun i => map (fun j => Finite (jacobian_of p i j))
                                        (seq 0 n)) (seq 0 n)) []) NaN
            = Finite (jacobian_of p i j)).
  { intros i j Hi Hj. rewrite (nth_map_seq _ n i []) by exact Hi.
    rewrite (nth_map_seq _ n j NaN) by exact Hj. reflexivity. }
  split.
  - intros i j Hi Hj. rewrite !Hentry by assumption.
    f_equal. apply jacobian_of_symmetric.
  - intros j Hj. rewrite map_map.
    rewrite (map_ext_in _ (fun i => Finite (jacobian_of p j i))).
    + rewrite <- (map_map (jacobian_of p j) Finite), fsum_finite. f_equal.
      replace n with (length p) by apply length_stable_softmax.
      apply Rsum_jacobian_row.
      * apply Rsum_stable_softmax, Hne.
      * unfold p. rewrite length_stable_softmax. exact Hj.
    + intros i Hi. apply in_seq in Hi.
      rewrite (nth_map_seq _ n j NaN) by exact Hj.
      f_equal. apply jacobian_of_symmetric.
Qed.

Lemma softmax_jacobian_is_symmetric_witness :
  exists jacobian,
    softmax_gradient (map Finite [1; 2; 3]) = Some jacobian /\
    (forall i j, (i < 3)%nat -> (j < 3)%nat ->
       nth j (nth i jacobian []) NaN = nth i (nth j jacobian []) NaN) /\
    (forall j, (j < 3)%nat ->
       fsum (map (fun row => nth j row NaN) jacobian) = Finite 0).
Proof.
  apply (softmax_jacobian_is_symmetric [1; 2; 3]). discriminate.
Defined.

Lemma Rmax_shift (a b c : R) : Rmax (a + c) (b + c) = Rmax a b + c.
Proof.
  unfold Rmax. destruct (Rle_dec (a + c) (b + c)), (Rle_dec a b);
    try reflexivity; lra.
Qed.

Lemma Rlist_max_shift (c x : R) (rest : list R) :
  Rlist_max (x + c) (map (fun y => y + c) rest) = Rlist_max x rest + c.
Proof.
  unfold Rlist_max. revert x.
  induction rest as [ | y rest IH ]; intros x; cbn [map fold_left].
  - reflexivity.
  - rewrite Rmax_shift. apply IH.
Qed.

Lemma stable_softmax_shift (c : R) (logits : list R) :
  stable_softmax (map (fun y => y + c) logits) = stable_softmax logits.
Proof.
  destruct logits as [ | x rest ]; [ reflexivity | ].
  unfold stable_softmax. cbn [map]. cbv zeta.
  rewrite Rlist_max_shift.
  set (m := Rlist_max x rest).
  assert (Hexp : forall y, exp (y + c - (m + c)) = exp (y - m))
    by (intros y; f_equal; ring).
  cbn [map Rsum]. rewrite !map_map, !Hexp.
  rewrite (map_ext _ (fun y => exp (y - m)) Hexp).
  f_equal. apply map_ext. intros y. rewrite Hexp. reflexivity.
Qed.

(** X29: Adding one finite constant to every logit leaves the result of
    [softmax_gradient] unchanged. *)
Theorem softmax_gradient_shift_invariant (logits : list R) (c : R) :
  softmax_gradient (map Finite (map (fun y => y + c) logits))
    = softmax_gradient (map Finite logits).
Proof.
  destruct logits as [ | x rest ]; [ reflexivity | ].
  rewrite !softmax_gradient_finite by discriminate.
  rewrite stable_softmax_shift, length_map. reflexivity.
Qed.

Lemma stable_softmax_positive (logits : list R) (i : nat) :
  (i < length logits)%nat -> 0 < nth i (stable_softmax logits) 0.
Proof.
  intros Hi. destruct logits as [ | x rest ]; [ cbn in Hi; lia | ].
  unfold stable_softmax. cbv zeta.
  set (m := Rlist_max x rest).
  set (z := Rsum (map (fun y => exp (y - m)) (x :: rest))).
  assert (Hz : 0 < z) by (apply Rsum_exp_positive; discriminate).
  rewrite nth_indep with (d' := (fun y => exp (y - m) / z) 0)
    by (rewrite length_map; exact Hi).
  rewrite (map_nth (fun y => exp (y - m) / z)).
  apply Rdiv_lt_0_compat; [ apply exp_pos | exact Hz ].
Qed.

Lemma nth_le_Rsum (l : list R) (i : nat) :
  Forall (fun x => 0 <= x) l -> (i < length l)%nat -> nth i l 0 <= Rsum l.
Proof.
  intros Hl. revert i. induction Hl as [ | x l Hx Hl IH ]; intros i Hi.
  - cbn in Hi. lia.
  - pose proof (Rsum_nonnegative l Hl) as Hs.
    destruct i as [ | i ]; cbn [nth Rsum]; [ lra | ].
    specialize (IH i ltac:(cbn in Hi; lia)). lra.
Qed.

(** X30: On non-empty finite logits the diagonal entries of the
    Jacobian lie in [0, 1/4] and the other entries are not positive. *)
Theorem softmax_jacobian_entry_bounds (logits : list R) (i j : nat) :
  (i < length logits)%nat -> (j < length logits)%nat ->
  exists jacobian entry,
    softmax_gradient (map Finite logits) = Some jacobian /\
    nth j (nth i jacobian []) NaN = Finite entry /\
    (i = j -> 0 <= entry <= 1/4) /\
    (i <> j -> entry <= 0).
Proof.
  intros Hi Hj.
  assert (Hne : logits <> []) by (destruct logits; [ cbn in Hi; lia | discriminate ]).
  set (p := stable_softmax logits).
  exists (map (fun i => map (fun j => Finite (jacobian_of p i j))
                            (seq 0 (length logits))) (seq 0 (length logits))),
         (jacobian_of p i j).
  split; [ apply softmax_gradient_finite, Hne | ].
  split.
  - rewrite (nth_map_seq _ _ i []) by exact Hi.
    rewrite (nth_map_seq _ _ j NaN) by exact Hj. reflexivity.
  - pose proof (stable_softmax_positive logits i Hi) as Hpi.
    pose proof (stable_softmax_positive logits j Hj) as Hpj.
    assert (Hle : nth i p 0 <= 1).
    { rewrite <- (Rsum_stable_softmax logits Hne). apply nth_le_Rsum.
      - apply Forall_forall. intros x Hx.
        apply (In_nth _ _ 0) in Hx as [k [Hk <-]].
        rewrite length_stable_softmax in Hk.
        apply Rlt_le, stable_softmax_positive, Hk.
      - unfold p. rewrite length_stable_softmax. exact Hi. }
    fold p in Hpi, Hpj. unfold jacobian_of. split.
    + intros ->. rewrite Nat.eqb_refl.
      pose proof (Rle_0_sqr (nth j p 0 - 1/2)) as Hsq. unfold Rsqr in Hsq.
      split; nra.
    + intros Hij. apply Nat.eqb_neq in Hij. rewrite Hij. nra.
Qed.

Lemma softmax_jacobian_entry_bounds_witness :
  (exists jacobian entry,
     softmax_gradient (map Finite [1; 2; 3]) = Some jacobian /\
     nth 1 (nth 1 jacobian []) NaN = Finite entry /\
     0 <= entry <= 1/4) /\
  (exists jacobian entry,
     softmax_gradient (map Finite [1; 2; 3]) = Some jacobian /\
     nth 2 (nth 0 jacobian []) NaN = Finite entry /\
     entry <= 0).
Proof.
  split.
  - destruct (softmax_jacobian_entry_bounds [1; 2; 3] 1 1)
      as [jacobian [entry [H1 [H2 [H3 _]]]]]; [ cbn; lia | cbn; lia | ].
    exists jacobian, entry.
    split; [ exact H1 | split; [ exact H2 | apply H3; reflexivity ] ].
  - destruct (softmax_jacobian_entry_bounds [1; 2; 3] 0 2)
      as [jacobian [entry [H1 [H2 [_ H4]]]]]; [ cbn; lia | cbn; lia | ].
    exists jacobian, entry.
    split; [ exact H1 | split; [ exact H2 | apply H4; discriminate ] ].
Defined.
